(** * Fredy: configuration reconciliation and the execution orchestrator

    A shallow embedding of
      - [src/lib/services/configSync/configJobSync.js] (the config.json to
        database reconciler), and
      - the orchestrator entry file (the bounded runner [runWithConcurrency]
        and the single-flight [execute] closure),
    together with the properties the specification states about them.

    JavaScript values are an inductive type; objects are association lists in
    property order, as [JSON.parse] produces them.  The job store and the
    provider registry are finite maps keyed by identifier. *)

From Stdlib Require Import ZArith String Ascii List Bool Lia.
From stdpp Require Import gmap strings list fin_maps.
Import ListNotations.

Local Open Scope string_scope.
Local Open Scope Z_scope.

(* ===================================================================== *)
(** ** JavaScript values *)
(* ===================================================================== *)

Module Js.

#[local] Set Warnings "-register-all".

Inductive value : Type :=
| VUndefined
| VNull
| VBool (b : bool)
| VNum (n : Z)
| VStr (s : string)
| VArr (items : list value)
| VObj (props : list (string * value)).

(** [ToBoolean]: what [if (x)], [!x], [x && y], [x || y] and
    [filter(Boolean)] look at.  Numbers of the model are the integers, so the
    only falsy number is 0. *)
Definition truthy (v : value) : bool :=
  match v with
  | VUndefined | VNull => false
  | VBool b => b
  | VNum n => negb (n =? 0)
  | VStr s => negb (String.eqb s EmptyString)
  | VArr _ | VObj _ => true
  end.

(** [a || b] *)
Definition or_else (a b : value) : value := if truthy a then a else b.

Fixpoint assoc (k : string) (props : list (string * value)) : value :=
  match props with
  | [] => VUndefined
  | (k', v) :: rest => if String.eqb k k' then v else assoc k rest
  end.

(** [o.k] for a value [o] that is neither [null] nor [undefined], and a key
    that is no built-in of strings, arrays or numbers (every key the modelled
    code reads, [length] apart, is such a key). *)
Definition prop (o : value) (k : string) : value :=
  match o with
  | VObj props => assoc k props
  | _ => VUndefined
  end.

(** [o.k] in general: reading a property of [null] or [undefined] throws a
    [TypeError], which is [None] here. *)
Definition get (o : value) (k : string) : option value :=
  match o with
  | VUndefined | VNull => None
  | _ => Some (prop o k)
  end.

(** [o.length] *)
Definition length_of (o : value) : value :=
  match o with
  | VArr items => VNum (Z.of_nat (List.length items))
  | VStr s => VNum (Z.of_nat (String.length s))
  | _ => prop o "length"
  end.

Definition isArray (v : value) : bool :=
  match v with VArr _ => true | _ => false end.

(** *** Strings *)

(** [s.startsWith(p)] *)
Fixpoint startsWith (p s : string) : bool :=
  match p, s with
  | EmptyString, _ => true
  | String a p', String b s' => Ascii.eqb a b && startsWith p' s'
  | String _ _, EmptyString => false
  end.

(** [s.includes(p)] *)
Fixpoint includes (s p : string) : bool :=
  startsWith p s ||
  match s with
  | EmptyString => false
  | String _ s' => includes s' p
  end.

(** [GetSubstitution] for a string pattern (no capture groups): [$$], [$&],
    [$`] and [$'] are special in the replacement text, every other character
    (also [$1] and [$<]) stands for itself. *)
Fixpoint getSubstitution (matched before after rep : string) : string :=
  match rep with
  | EmptyString => EmptyString
  | String c r =>
      if Ascii.eqb c "$" then
        match r with
        | String d r' =>
            if Ascii.eqb d "$" then String "$" (getSubstitution matched before after r')
            else if Ascii.eqb d "&" then matched +:+ getSubstitution matched before after r'
            else if Ascii.eqb d "`" then before +:+ getSubstitution matched before after r'
            else if Ascii.eqb d "'" then after +:+ getSubstitution matched before after r'
            else String c (getSubstitution matched before after r)
        | EmptyString => String c EmptyString
        end
      else String c (getSubstitution matched before after r)
  end.

Definition drop_string (n : nat) (s : string) : string :=
  String.substring n (String.length s - n) s.

(** [s.replaceAll(pat, rep)] for a non-empty string pattern: scan from the
    left, at a match emit the substitution and jump over the match.
    [skip] counts the characters of a match still to be jumped over and
    [before] is the text already scanned. *)
Fixpoint replaceAll_from (pat rep : string) (skip : nat) (before s : string) : string :=
  match s with
  | EmptyString => EmptyString
  | String c s' =>
      match skip with
      | S k => replaceAll_from pat rep k (before +:+ String c EmptyString) s'
      | O =>
          if startsWith pat s then
            getSubstitution pat before (drop_string (String.length pat) s) rep
            +:+ replaceAll_from pat rep (String.length pat - 1)
                  (before +:+ String c EmptyString) s'
          else String c (replaceAll_from pat rep O (before +:+ String c EmptyString) s')
      end
  end.

Definition replaceAll (s pat rep : string) : string :=
  replaceAll_from pat rep O EmptyString s.

End Js.

Import Js.

(* ===================================================================== *)
(** ** configJobSync.js *)
(* ===================================================================== *)

Module ConfigSync.

Definition CONFIG_SYNC_USER_ID : string := "config_sync".

(** [process.env], as far as the reconciler reads it. *)
Record Env : Type := {
  BOT_TOKEN : option string;
  RAW_FEED_CHANNEL_ID : option string
}.

(** [process.env.X && ...]: an unset or empty variable is falsy. *)
Definition env_set (x : option string) : option string :=
  match x with
  | Some s => if String.eqb s EmptyString then None else Some s
  | None => None
  end.

Section Placeholders.

Variable env : Env.

(** The string branch of [replaceEnvPlaceholdersSimple]: both tests read
    [value], the string as it was before either assignment. *)
Definition replaceString (value : string) : string :=
  let after_bot :=
    match env_set (BOT_TOKEN env) with
    | Some tok =>
        if includes value "${BOT_TOKEN}"
        then replaceAll value "${BOT_TOKEN}" tok else value
    | None => value
    end in
  match env_set (RAW_FEED_CHANNEL_ID env) with
  | Some chan =>
      if includes value "${RAW_FEED_CHANNEL_ID}"
      then replaceAll value "${RAW_FEED_CHANNEL_ID}" chan else after_bot
  | None => after_bot
  end.

(** The body of the [for (const key in obj)] loop, for one property value
    (or one array element, when [obj] is an array). *)
Definition replaceProperty (self : value -> value) (val : value) : value :=
  match val with
  | VStr s => VStr (replaceString s)
  | VObj _ => self val
  | VArr items =>
      VArr (List.map (fun item =>
                        match item with
                        | VObj _ | VArr _ => self item
                        | _ => item
                        end) items)
  | _ => val
  end.

(** The function mutates [obj] in place; the configuration it is given is a
    freshly parsed tree, so the result is the tree after the mutation. *)
Fixpoint replaceEnvPlaceholdersSimple (obj : value) : value :=
  match obj with
  | VObj props =>
      VObj (List.map (fun kv => (fst kv, replaceProperty replaceEnvPlaceholdersSimple (snd kv)))
              props)
  | VArr items => VArr (List.map (replaceProperty replaceEnvPlaceholdersSimple) items)
  | _ => obj
  end.

End Placeholders.

(** [convertNotificationAdapter]; the result [VNull] is the source's
    [null]. *)
Definition convertNotificationAdapter (adapter : value) : value :=
  if negb (truthy adapter) then VNull
  else if truthy (prop adapter "type") && truthy (prop adapter "botToken")
          && truthy (prop adapter "chatId")
  then VObj [("id", prop adapter "type");
             ("fields", VObj [("token", prop adapter "botToken");
                              ("chatId", prop adapter "chatId")])]
  else if negb (truthy (prop adapter "id")) then VNull
  else if truthy (prop adapter "fields") then adapter
  else if truthy (prop adapter "args")
  then VObj [("id", prop adapter "id"); ("fields", prop adapter "args")]
  else VObj [("id", prop adapter "id"); ("fields", VObj [])].

(** *** The job store and the user store

    [jobStorage.js] and [userStorage.js] are imported by the reconciler but
    are not part of the sources at hand. *)

(** Modelled from the spec: a stored Job, without its identifier (the key
    of the store).  The fields are those of the object the reconciler hands
    to [upsertJob]; [userId] is the owner identifier. *)
Record JobRow : Type := {
  name : value;
  enabled : bool;
  provider : value;
  notificationAdapter : list value;
  userId : string;
  shareWithUsers : value;
  blacklist : value
}.

(** The argument object of [upsertJob]. *)
Record JobData : Type := {
  jobId : value;
  row : JobRow
}.

(** Modelled from the spec: [getJobs() -> sequence of Job] of the persistent
    job store.  A Job has a unique, stable string identifier, so the store
    is a finite map from identifier to row. *)
Definition getJobs (db : gmap string JobRow) : list (string * JobRow) :=
  map_to_list db.

(** Modelled from the spec: [upsertJob(jobData) -> void].  The row is
    written under its identifier, with the owner it is given, replacing a
    row already there; an identifier that is not a string is no identifier
    of the data model and is refused ([None]: the call throws). *)
Definition upsertJob (data : JobData) (db : gmap string JobRow)
  : option (gmap string JobRow) :=
  match jobId data with
  | VStr id => Some (<[id := row data]> db)
  | _ => None
  end.

(** Modelled from the spec: [removeJob(id) -> void]. *)
Definition removeJob (id : string) (db : gmap string JobRow) : gmap string JobRow :=
  delete id db.

(** Modelled from the spec: [getUser(id) -> User|absent] of the persistent
    user store, which is kept as the set of the user identifiers it
    holds. *)
Definition getUser (id : string) (users : gset string) : bool :=
  bool_decide (id ∈ users).

(** Modelled from the spec: [upsertUser(userData) -> void]. *)
Definition upsertUser (id : string) (users : gset string) : gset string :=
  {[id]} ∪ users.

(** [ensureConfigSyncUser] *)
Definition ensureConfigSyncUser (users : gset string) : gset string :=
  if getUser CONFIG_SYNC_USER_ID users then users
  else upsertUser CONFIG_SYNC_USER_ID users.

(** *** syncJobToDatabase *)

(** [array.map(convertNotificationAdapter).filter(Boolean)] *)
Definition convertAll (adapters : list value) : list value :=
  List.filter truthy (List.map convertNotificationAdapter adapters).

(** Lines 122-134: the job's own adapters, or the global ones when the job
    has none.  [None] is the [TypeError] of calling [forEach] on a truthy
    [adapters] that is no array. *)
Definition jobNotificationAdapters (jobConfig currentConfig : value)
  : option (list value) :=
  let notificationAdapters :=
    match prop jobConfig "notificationAdapter" with
    | VArr items => convertAll items
    | _ => []
    end in
  if (Nat.eqb (List.length notificationAdapters) 0)
     && truthy currentConfig && truthy (prop currentConfig "adapters")
  then
    match prop currentConfig "adapters" with
    | VArr globals => Some (notificationAdapters ++ convertAll globals)%list
    | _ => None
    end
  else Some notificationAdapters.

(** [jobConfig.enabled !== false] *)
Definition enabled_flag (v : value) : bool :=
  match v with VBool false => false | _ => true end.

(** The object handed to [upsertJob]. *)
Definition jobDataOf (jobConfig : value) (adapters : list value) : JobData :=
  {| jobId := prop jobConfig "id";
     row := {| name := or_else (prop jobConfig "name") (prop jobConfig "id");
               enabled := enabled_flag (prop jobConfig "enabled");
               provider := or_else (prop jobConfig "provider") (VArr []);
               notificationAdapter := adapters;
               userId := CONFIG_SYNC_USER_ID;
               shareWithUsers := or_else (prop jobConfig "user_ids") (VArr []);
               blacklist := or_else (prop jobConfig "blacklist") (VArr []) |} |}.

(** The [try] block; [None] is an exception thrown inside it. *)
Definition syncJob_try (jobConfig currentConfig : value) (db : gmap string JobRow)
  : option (bool * gmap string JobRow) :=
  match get jobConfig "id" with
  | None => None
  | Some id =>
      if negb (truthy id) then Some (false, db)
      else
        match jobNotificationAdapters jobConfig currentConfig with
        | None => None
        | Some [] => Some (false, db)
        | Some adapters =>
            match upsertJob (jobDataOf jobConfig adapters) db with
            | Some db' => Some (true, db')
            | None => None
            end
        end
  end.

(** [syncJobToDatabase]: the [catch] block logs [jobConfig.id] and returns
    [false]; reading [jobConfig.id] there throws again when [jobConfig] is
    [null], and that exception leaves the function ([None]). *)
Definition syncJobToDatabase (jobConfig currentConfig : value) (db : gmap string JobRow)
  : option (bool * gmap string JobRow) :=
  match syncJob_try jobConfig currentConfig db with
  | Some r => Some r
  | None =>
      match get jobConfig "id" with
      | Some _ => Some (false, db)
      | None => None
      end
  end.

(** *** syncConfigJobsToDatabase *)

(** The module-level variables and the two stores. *)
Record SyncState : Type := {
  syncInProgress : bool;
  lastSyncTime : option Z;
  users : gset string;
  jobs : gmap string JobRow
}.

(** What the run logged at its end. *)
Inductive Outcome : Type :=
| AlreadyInProgress
| NoJobs
| Completed (syncedCount skippedCount removed : nat)
| Failed.

(** The number of removals a run logged. *)
Definition removedCount (o : Outcome) : nat :=
  match o with
  | Completed _ _ removed => removed
  | _ => 0%nat
  end.

(** [configJobs.map((job) => job.id)], [None] when an entry is [null]. *)
Fixpoint jobIds (configJobs : list value) : option (list value) :=
  match configJobs with
  | [] => Some []
  | job :: rest =>
      match get job "id", jobIds rest with
      | Some id, Some ids => Some (id :: ids)
      | _, _ => None
      end
  end.

(** [configJobIds.has(id)] for a store identifier, which is a string. *)
Definition has (configJobIds : list value) (id : string) : bool :=
  existsb (fun v => match v with VStr s => String.eqb s id | _ => false end)
          configJobIds.

(** The [for (const jobConfig of configJobs)] loop.  [inr db] is an
    exception that left [syncJobToDatabase], with the store as it then is. *)
Fixpoint syncEach (configJobs : list value) (currentConfig : value)
    (db : gmap string JobRow) (syncedCount skippedCount : nat)
  : (gmap string JobRow * nat * nat) + gmap string JobRow :=
  match configJobs with
  | [] => inl (db, syncedCount, skippedCount)
  | jobConfig :: rest =>
      match syncJobToDatabase jobConfig currentConfig db with
      | Some (true, db') => syncEach rest currentConfig db' (S syncedCount) skippedCount
      | Some (false, db') => syncEach rest currentConfig db' syncedCount (S skippedCount)
      | None => inr db
      end
  end.

Definition jobsToRemove (existingJobs : list (string * JobRow)) (configJobIds : list value)
  : list (string * JobRow) :=
  List.filter (fun job => negb (has configJobIds (fst job))) existingJobs.

Definition removeAll (toRemove : list (string * JobRow)) (db : gmap string JobRow)
  : gmap string JobRow :=
  fold_left (fun d job => removeJob (fst job) d) toRemove db.

Definition existingJobsOf (db : gmap string JobRow) : list (string * JobRow) :=
  List.filter (fun job => String.eqb (userId (snd job)) CONFIG_SYNC_USER_ID) (getJobs db).

(** [currentConfig.jobs || []], [None] when [currentConfig] is [null]. *)
Definition configJobsOf (currentConfig : value) : option value :=
  match get currentConfig "jobs" with
  | Some j => Some (or_else j (VArr []))
  | None => None
  end.

(** The part of the [try] block after the configuration was read: the new
    job store and what was logged.  Every exception ends in the outer
    [catch], which logs and keeps what was written so far. *)
Definition reconcile (currentConfig : value) (db : gmap string JobRow)
  : gmap string JobRow * Outcome :=
  match configJobsOf currentConfig with
  | None => (db, Failed)
  | Some configJobs =>
      match length_of configJobs with
      | VNum 0 => (db, NoJobs)
      | _ =>
          let existingJobs := existingJobsOf db in
          match configJobs with
          | VArr items =>
              match jobIds items with
              | None => (db, Failed)
              | Some configJobIds =>
                  match syncEach items currentConfig db 0 0 with
                  | inr db' => (db', Failed)
                  | inl (db', syncedCount, skippedCount) =>
                      let toRemove := jobsToRemove existingJobs configJobIds in
                      (removeAll toRemove db',
                       Completed syncedCount skippedCount (List.length toRemove))
                  end
              end
          | _ => (db, Failed)
          end
      end
  end.

(** [syncConfigJobsToDatabase].  [file] is what [refreshConfig] followed by
    [readConfigFromStorage] delivers ([None]: one of them rejects) and [now]
    is [Date.now()] at the end of the run. *)
Definition syncConfigJobsToDatabase (env : Env) (file : option value) (now : Z)
    (st : SyncState) : SyncState * Outcome :=
  if syncInProgress st then (st, AlreadyInProgress)
  else
    let users' := ensureConfigSyncUser (users st) in
    match file with
    | None =>
        ({| syncInProgress := false; lastSyncTime := lastSyncTime st;
            users := users'; jobs := jobs st |}, Failed)
    | Some parsed =>
        let currentConfig := replaceEnvPlaceholdersSimple env parsed in
        match reconcile currentConfig (jobs st) with
        | (db, Completed a b c) =>
            ({| syncInProgress := false; lastSyncTime := Some now;
                users := users'; jobs := db |}, Completed a b c)
        | (db, o) =>
            ({| syncInProgress := false; lastSyncTime := lastSyncTime st;
                users := users'; jobs := db |}, o)
        end
    end.

(** The identifiers the declarative source declares, as [configJobIds] holds
    them ([[]] when the run stops before it builds the set). *)
Definition declaredIds (env : Env) (file : option value) : list value :=
  match file with
  | Some parsed =>
      match configJobsOf (replaceEnvPlaceholdersSimple env parsed) with
      | Some (VArr items) => default [] (jobIds items)
      | _ => []
      end
  | None => []
  end.

End ConfigSync.

(* ===================================================================== *)
(** ** The orchestrator entry file *)
(* ===================================================================== *)

Module Orchestrator.
Import ConfigSync.

(** [s.replace(pat, rep)] for a non-empty string pattern: the first match
    only. *)
Fixpoint replace_from (pat rep before s : string) : string :=
  match s with
  | EmptyString => EmptyString
  | String c s' =>
      if startsWith pat s then
        getSubstitution pat before (drop_string (String.length pat) s) rep
        +:+ drop_string (String.length pat) s
      else String c (replace_from pat rep (before +:+ String c EmptyString) s')
  end.

Definition replace (s pat rep : string) : string :=
  replace_from pat rep EmptyString s.

Section Placeholders.

Variable env : Env.

(** The string branch of [replaceEnvPlaceholders], the start-up variant. *)
Definition replaceStringAtStartup (val : string) : string :=
  match env_set (BOT_TOKEN env) with
  | Some tok =>
      if includes val "${BOT_TOKEN}" || String.eqb val "ENV_BOT_TOKEN" then
        replace (replaceAll val "${BOT_TOKEN}" tok) "ENV_BOT_TOKEN" tok
      else
        match env_set (RAW_FEED_CHANNEL_ID env) with
        | Some chan =>
            if includes val "${RAW_FEED_CHANNEL_ID}" || String.eqb val "ENV_CHANNEL_ID"
            then replace (replaceAll val "${RAW_FEED_CHANNEL_ID}" chan) "ENV_CHANNEL_ID" chan
            else val
        | None => val
        end
  | None =>
      match env_set (RAW_FEED_CHANNEL_ID env) with
      | Some chan =>
          if includes val "${RAW_FEED_CHANNEL_ID}" || String.eqb val "ENV_CHANNEL_ID"
          then replace (replaceAll val "${RAW_FEED_CHANNEL_ID}" chan) "ENV_CHANNEL_ID" chan
          else val
      | None => val
      end
  end.

Definition replaceAtStartup (self : value -> value) (val : value) : value :=
  match val with
  | VStr s => VStr (replaceStringAtStartup s)
  | VObj _ | VArr _ => self val
  | _ => val
  end.

(** [replaceEnvPlaceholders]: every object is walked with [for ... in],
    arrays included, so the elements of an array are treated like the
    properties of an object. *)
Fixpoint replaceEnvPlaceholders (obj : value) : value :=
  match obj with
  | VObj props =>
      VObj (List.map (fun kv => (fst kv, replaceAtStartup replaceEnvPlaceholders (snd kv)))
              props)
  | VArr items => VArr (List.map (replaceAtStartup replaceEnvPlaceholders) items)
  | _ => obj
  end.

End Placeholders.

(** *** Task planning and the tasks

    A provider module is known here by its [init] operation;
    [FredyPipeline] is the external per-task pipeline. *)

Inductive Settlement : Type := Fulfilled | Rejected.

(** What a cycle calls and logs, in order. *)
Inductive Event : Type :=
| Warn (providerId : value) (jobId : string)
| CallInit (prov blacklist : value) (jobId : string)
| CallPipeline (config : value) (adapters : list value) (providerId : value)
               (jobId : string)
| LogError (providerId : value) (jobId : string).

Section Planning.

(** The type of loaded provider modules.  [init p prov blacklist] is
    [p.init(prov, blacklist)]: the [p.config] it leaves behind, or [None]
    when it throws. *)
Variable Provider : Type.
Variable init : Provider -> value -> value -> option value.

(** [new FredyPipeline(config, adapters, providerId, jobId, cache).execute()]:
    how the promise settles. *)
Variable pipeline : value -> list value -> value -> string -> Settlement.

(** The closure pushed to [tasks]: it captures the provider module, the
    binding and the job. *)
Record Task : Type := {
  matchedProvider : Provider;
  prov : value;
  job : string * JobRow
}.

(** [providerMap.get(id)]: the keys of the map are the providers'
    identifiers, which are strings. *)
Definition providerMap_get (providerMap : gmap string Provider) (id : value)
  : option Provider :=
  match id with
  | VStr s => providerMap !! s
  | _ => None
  end.

(** [job.enabled && Array.isArray(job.provider) && job.provider.length > 0] *)
Definition schedulable (j : string * JobRow) : bool :=
  enabled (snd j) &&
  match provider (snd j) with
  | VArr (_ :: _) => true
  | _ => false
  end.

Definition bindings (j : string * JobRow) : list value :=
  match provider (snd j) with
  | VArr items => items
  | _ => []
  end.

(** The inner [for (const prov of job.provider)] loop; [tasks] and [log]
    grow at their ends.  [None]: [prov.id] threw. *)
Fixpoint planBindings (providerMap : gmap string Provider) (j : string * JobRow)
    (provs : list value) (tasks : list Task) (log : list Event)
  : option (list Task * list Event) :=
  match provs with
  | [] => Some (tasks, log)
  | p :: rest =>
      match get p "id" with
      | None => None
      | Some id =>
          match providerMap_get providerMap id with
          | None => planBindings providerMap j rest tasks (log ++ [Warn id (fst j)])
          | Some m =>
              planBindings providerMap j rest
                (tasks ++ [{| matchedProvider := m; prov := p; job := j |}]) log
          end
      end
  end.

(** The outer [for (const job of jobs)] loop. *)
Fixpoint planJobs (providerMap : gmap string Provider) (jobs : list (string * JobRow))
    (tasks : list Task) (log : list Event) : option (list Task * list Event) :=
  match jobs with
  | [] => Some (tasks, log)
  | j :: rest =>
      match planBindings providerMap j (bindings j) tasks log with
      | None => None
      | Some (tasks', log') => planJobs providerMap rest tasks' log'
      end
  end.

(** Lines 225-252 of [execute]: filter the stored jobs, then fill
    [tasks]. *)
Definition planTasks (providerMap : gmap string Provider)
    (storedJobs : list (string * JobRow)) : option (list Task * list Event) :=
  planJobs providerMap (List.filter schedulable storedJobs) [] [].

(** Running one task: the body of the closure.  Everything is inside its
    [try], so the task's promise is fulfilled whatever happens. *)
Definition runTask (t : Task) : list Event * Settlement :=
  let providerId := prop (prov t) "id" in
  let jobId := fst (job t) in
  match init (matchedProvider t) (prov t) (blacklist (snd (job t))) with
  | None =>
      ([CallInit (prov t) (blacklist (snd (job t))) jobId;
        LogError providerId jobId], Fulfilled)
  | Some config =>
      match pipeline config (notificationAdapter (snd (job t))) providerId jobId with
      | Fulfilled =>
          ([CallInit (prov t) (blacklist (snd (job t))) jobId;
            CallPipeline config (notificationAdapter (snd (job t))) providerId jobId],
           Fulfilled)
      | Rejected =>
          ([CallInit (prov t) (blacklist (snd (job t))) jobId;
            CallPipeline config (notificationAdapter (snd (job t))) providerId jobId;
            LogError providerId jobId], Fulfilled)
      end
  end.

(** *** The execution gate *)

(** [executionInFlight] and [config.lastRun]. *)
Record GateState : Type := {
  executionInFlight : bool;
  lastRun : option Z
}.

(** What one trigger finds: [config.demoMode], the answer of
    [duringWorkingHoursOrNotSet(config, Date.now())] ([None]: it threw),
    [Date.now()], and what [jobStorage.getJobs()] returns ([None]: it
    threw). *)
Record Trigger : Type := {
  demoMode : bool;
  duringWorkingHours : option bool;
  now : Z;
  storedJobs : option (list (string * JobRow))
}.

(** How far a call of [execute] gets before it returns or suspends. *)
Inductive Started : Type :=
| Skipped                      (* a cycle is in flight: return at once *)
| Finished (log : list Event)  (* returned without awaiting; [finally] ran *)
| Thrown                       (* an exception; [finally] ran *)
| Awaiting (tasks : list Task) (log : list Event).
                               (* suspended in [await runWithConcurrency] *)

(** [execute] up to its [await]. *)
Definition execute (providerMap : gmap string Provider) (t : Trigger) (st : GateState)
  : GateState * Started :=
  if executionInFlight st then (st, Skipped)
  else
    let idle l := {| executionInFlight := false; lastRun := l |} in
    if demoMode t then (idle (lastRun st), Finished [])
    else
      match duringWorkingHours t with
      | None => (idle (lastRun st), Thrown)
      | Some false => (idle (lastRun st), Finished [])
      | Some true =>
          match storedJobs t with
          | None => (idle (Some (now t)), Thrown)
          | Some js =>
              match planTasks providerMap js with
              | None => (idle (Some (now t)), Thrown)
              | Some ([], log) => (idle (Some (now t)), Finished log)
              | Some (tasks, log) =>
                  ({| executionInFlight := true; lastRun := Some (now t) |},
                   Awaiting tasks log)
              end
          end
      end.

(** [execute] after its [await]: however the runner's promise settled, the
    [finally] block runs. *)
Definition execute_resume (runner : Settlement) (st : GateState) : GateState :=
  {| executionInFlight := false; lastRun := lastRun st |}.

(** A burst of triggers, one call of [execute] after the other. *)
Fixpoint triggerAll (providerMap : gmap string Provider) (ts : list Trigger)
    (st : GateState) : GateState * list Started :=
  match ts with
  | [] => (st, [])
  | t :: rest =>
      let '(st1, r) := execute providerMap t st in
      let '(st2, rs) := triggerAll providerMap rest st1 in
      (st2, r :: rs)
  end.

End Planning.

Arguments Build_Task {Provider} _ _ _.
Arguments matchedProvider {Provider} _.
Arguments prov {Provider} _.
Arguments job {Provider} _.
Arguments providerMap_get {Provider} _ _.
Arguments planBindings {Provider} _ _ _ _ _.
Arguments planJobs {Provider} _ _ _ _.
Arguments planTasks {Provider} _ _.
Arguments runTask {Provider} _ _ _.
Arguments execute {Provider} _ _ _.
Arguments triggerAll {Provider} _ _ _.
Arguments Skipped {Provider}.
Arguments Finished {Provider} _.
Arguments Thrown {Provider}.
Arguments Awaiting {Provider} _ _.

(** *** runWithConcurrency

    The runner and the promises it creates are interleaved cooperatively on
    one thread.  A state of that interleaving holds the position of the
    [for ... of] loop, the [executing] set, the promises that have settled,
    and where the runner itself stands.  Promise [i] is the one created for
    [tasks[i]]. *)

Module Runner.

Inductive Phase : Type :=
| Looping                          (* inside the loop, about to take [tasks[cursor]] *)
| AwaitingNext (raced : list nat)  (* in [await waitForNext()], racing these *)
| AwaitingAll (snapshot : list nat)(* in [await Promise.allSettled(executing)] *)
| Returned                         (* the runner's promise is fulfilled *)
| Threw.                           (* the runner's promise is rejected *)

Record State : Type := {
  cursor : nat;
  executing : list nat;
  settled : list (nat * Settlement);
  phase : Phase
}.

(** [Math.max(limit || 1, 1)] *)
Definition maxParallel (limit : Z) : Z :=
  Z.max (if limit =? 0 then 1 else limit) 1.

(** [waitForNext]: the rejection of the race is swallowed by the empty
    [catch]. *)
Definition waitForNext (race : Settlement) : Settlement :=
  match race with
  | Fulfilled => Fulfilled
  | Rejected => Fulfilled
  end.

(** The runner up to its first suspension point: the guard on an empty
    task list. *)
Definition start (n : nat) : State :=
  {| cursor := 0; executing := []; settled := [];
     phase := if Nat.eqb n 0 then Returned else Looping |}.

Definition isSettled (st : State) (i : nat) : bool :=
  bool_decide (i ∈ (settled st).*1).

Definition outcomeOf (st : State) (i : nat) : Settlement :=
  default Fulfilled (snd <$> List.find (fun p => Nat.eqb (fst p) i) (settled st)).

(** What the scheduler can let happen next. *)
Inductive Step : Type :=
| Resume                          (* the runner runs one loop iteration, or leaves the loop *)
| Settle (i : nat) (o : Settlement)  (* promise [i] settles *)
| Cleanup (i : nat)               (* the [finally] callback of promise [i]:
                                     [executing.delete(promise)] *)
| RaceWon (i : nat)               (* the race settles through promise [i] and
                                     [waitForNext] returns *)
| AllSettled.                     (* [allSettled] resolves and the runner returns *)

(** One step of the interleaving; [None] when the step is not enabled.
    The [finally] callback of a promise is registered when the promise is
    created, before any race can subscribe to it, and reactions of one
    promise run in registration order: a race is won through a promise only
    after that promise has left [executing]. *)
Definition step (n : nat) (limit : Z) (ev : Step) (st : State) : option State :=
  match ev, phase st with
  | Resume, Looping =>
      if Nat.ltb (cursor st) n then
        let executing' := (executing st ++ [cursor st])%list in
        Some {| cursor := S (cursor st);
                executing := executing';
                settled := settled st;
                phase := if Z.of_nat (List.length executing') >=? maxParallel limit
                         then AwaitingNext executing' else Looping |}
      else
        Some {| cursor := cursor st; executing := executing st;
                settled := settled st; phase := AwaitingAll (executing st) |}
  | Settle i o, _ =>
      if Nat.ltb i (cursor st) && negb (isSettled st i) then
        Some {| cursor := cursor st; executing := executing st;
                settled := (settled st ++ [(i, o)])%list; phase := phase st |}
      else None
  | Cleanup i, _ =>
      if isSettled st i && bool_decide (i ∈ executing st) then
        Some {| cursor := cursor st;
                executing := List.filter (fun j => negb (Nat.eqb j i)) (executing st);
                settled := settled st; phase := phase st |}
      else None
  | RaceWon i, AwaitingNext raced =>
      if bool_decide (i ∈ raced) && isSettled st i
         && negb (bool_decide (i ∈ executing st)) then
        Some {| cursor := cursor st; executing := executing st;
                settled := settled st;
                phase := match waitForNext (outcomeOf st i) with
                         | Fulfilled => Looping
                         | Rejected => Threw
                         end |}
      else None
  | AllSettled, AwaitingAll snapshot =>
      if forallb (isSettled st) snapshot then
        Some {| cursor := cursor st; executing := executing st;
                settled := settled st; phase := Returned |}
      else None
  | _, _ => None
  end.

(** A schedule, from a given state. *)
Fixpoint run (n : nat) (limit : Z) (evs : list Step) (st : State) : option State :=
  match evs with
  | [] => Some st
  | ev :: rest =>
      match step n limit ev st with
      | Some st' => run n limit rest st'
      | None => None
      end
  end.

(** [runWithConcurrency(tasks, limit)] under a schedule. *)
Definition runWithConcurrency {T : Type} (tasks : list T) (limit : Z)
    (evs : list Step) : option State :=
  run (List.length tasks) limit evs (start (List.length tasks)).

(** The promises that were created and have not settled. *)
Definition unsettled (st : State) : list nat :=
  List.filter (fun i => negb (isSettled st i)) (seq 0 (cursor st)).

End Runner.

End Orchestrator.

(* ===================================================================== *)
(** ** configJobSync.js: the file watcher *)
(* ===================================================================== *)

Module Watcher.
Import ConfigSync.

(** *** The debounce of one watcher

    [startConfigFileWatcher] creates one closure per watcher: the callback
    handed to [fs.watch], with its own variable [debounceTimer].  Times are
    milliseconds; a timer set with [setTimeout(f, 2000)] does not fire
    before 2000 ms have passed. *)

Definition DEBOUNCE_MS : Z := 2000.

Record Debounce : Type := {
  debounceTimer : option nat;  (* the closure variable: the latest Timeout *)
  armed : list (nat * Z);      (* timers set and neither fired nor cleared,
                                  with the time they are due *)
  nextTimer : nat;             (* [setTimeout] returns a fresh Timeout *)
  clock : Z;                   (* the time of the latest event *)
  changes : list Z;            (* when a change event (re)started the timer *)
  syncs : list Z               (* when the timer callback called
                                  [syncConfigJobsToDatabase] *)
}.

Definition freshDebounce (t0 : Z) : Debounce :=
  {| debounceTimer := None; armed := []; nextTimer := 0; clock := t0;
     changes := []; syncs := [] |}.

(** [clearTimeout(id)]: a Timeout that already fired is not in [armed], and
    clearing it does nothing. *)
Definition clearTimeout (id : nat) (timers : list (nat * Z)) : list (nat * Z) :=
  List.filter (fun p => negb (Nat.eqb (fst p) id)) timers.

(** The callback of [fs.watch], called at time [t]. *)
Definition onFsEvent (t : Z) (eventType : string) (filename : value) (d : Debounce)
  : Debounce :=
  if String.eqb eventType "change" && truthy filename then
    let cleared :=
      match debounceTimer d with
      | Some id => clearTimeout id (armed d)
      | None => armed d
      end in
    {| debounceTimer := Some (nextTimer d);
       armed := (cleared ++ [(nextTimer d, t + DEBOUNCE_MS)])%list;
       nextTimer := S (nextTimer d);
       clock := t;
       changes := t :: changes d;
       syncs := syncs d |}
  else
    {| debounceTimer := debounceTimer d; armed := armed d;
       nextTimer := nextTimer d; clock := t;
       changes := changes d; syncs := syncs d |}.

Definition dueOf (id : nat) (timers : list (nat * Z)) : option Z :=
  snd <$> List.find (fun p => Nat.eqb (fst p) id) timers.

(** The callback of [setTimeout], run at time [t] for Timeout [id]: it logs
    and calls [syncConfigJobsToDatabase]. *)
Definition onTimeout (t : Z) (id : nat) (d : Debounce) : Debounce :=
  {| debounceTimer := debounceTimer d;
     armed := clearTimeout id (armed d);
     nextTimer := nextTimer d; clock := t;
     changes := changes d; syncs := t :: syncs d |}.

Inductive WatchEvent : Type :=
| FsEvent (t : Z) (eventType : string) (filename : value)
| TimerFires (t : Z) (id : nat).

(** One event; [None] when it cannot happen: time does not run backwards,
    and a timer fires only while it is armed and not before it is due. *)
Definition watchStep (ev : WatchEvent) (d : Debounce) : option Debounce :=
  match ev with
  | FsEvent t eventType filename =>
      if clock d <=? t then Some (onFsEvent t eventType filename d) else None
  | TimerFires t id =>
      match dueOf id (armed d) with
      | Some due => if (clock d <=? t) && (due <=? t) then Some (onTimeout t id d) else None
      | None => None
      end
  end.

Fixpoint watchRun (evs : list WatchEvent) (d : Debounce) : option Debounce :=
  match evs with
  | [] => Some d
  | ev :: rest =>
      match watchStep ev d with
      | Some d' => watchRun rest d'
      | None => None
      end
  end.

(** *** Starting and stopping the watcher *)

(** The module variable [fileWatcher] and the watchers that are open in the
    operating system. *)
Record Lifecycle : Type := {
  fileWatcher : option nat;
  openWatchers : list nat;
  nextWatcher : nat
}.

Definition noWatcher : Lifecycle :=
  {| fileWatcher := None; openWatchers := []; nextWatcher := 0 |}.

(** [startConfigFileWatcher]; [fileExists] is the answer of
    [fs.existsSync(CONFIG_PATH)] and [watchWorks] tells whether [fs.watch]
    returns a watcher or throws. *)
Definition startConfigFileWatcher (fileExists watchWorks : bool) (w : Lifecycle)
  : Lifecycle :=
  match fileWatcher w with
  | Some _ => w
  | None =>
      if negb fileExists then w
      else if watchWorks then
        {| fileWatcher := Some (nextWatcher w);
           openWatchers := nextWatcher w :: openWatchers w;
           nextWatcher := S (nextWatcher w) |}
      else w
  end.

(** [stopConfigFileWatcher] *)
Definition stopConfigFileWatcher (w : Lifecycle) : Lifecycle :=
  match fileWatcher w with
  | Some h =>
      {| fileWatcher := None;
         openWatchers := List.filter (fun x => negb (Nat.eqb x h)) (openWatchers w);
         nextWatcher := nextWatcher w |}
  | None => w
  end.

(** [cleanup] *)
Definition cleanup (w : Lifecycle) : Lifecycle := stopConfigFileWatcher w.

(** [initConfigJobSync]: the start-up sync, then the watcher.
    [syncConfigJobsToDatabase] catches whatever is thrown inside it, so the
    watcher is started in every case. *)
Definition initConfigJobSync (env : Env) (file : option value) (now : Z)
    (fileExists watchWorks : bool) (st : SyncState * Lifecycle)
  : SyncState * Lifecycle :=
  (fst (syncConfigJobsToDatabase env file now (fst st)),
   startConfigFileWatcher fileExists watchWorks (snd st)).

(** [triggerSync] *)
Definition triggerSync (env : Env) (file : option value) (now : Z) (st : SyncState)
  : SyncState :=
  fst (syncConfigJobsToDatabase env file now st).

(** [getLastSyncTime] *)
Definition getLastSyncTime (st : SyncState) : option Z := lastSyncTime st.

(** What the rest of the program can do with the watcher. *)
Inductive LifecycleOp : Type :=
| Start (fileExists watchWorks : bool)
| Stop.

Definition lifecycleStep (op : LifecycleOp) (w : Lifecycle) : Lifecycle :=
  match op with
  | Start fileExists watchWorks => startConfigFileWatcher fileExists watchWorks w
  | Stop => stopConfigFileWatcher w
  end.

End Watcher.

(* ===================================================================== *)
(** ** fredyJobRouter.js: the external job API on config.json *)
(* ===================================================================== *)

Module ExternalApi.

(** [a === b] for two values that come from different parses (the request
    and the configuration): primitives are compared by type and value, and
    an object or array is never identical to another one. *)
Definition strictEq (a b : value) : bool :=
  match a, b with
  | VUndefined, VUndefined => true
  | VNull, VNull => true
  | VBool x, VBool y => Bool.eqb x y
  | VNum x, VNum y => x =? y
  | VStr x, VStr y => String.eqb x y
  | _, _ => false
  end.

(** [obj[k] = v] on the properties of an object: an existing property keeps
    its place, a new one goes to the end. *)
Fixpoint assign (k : string) (v : value) (props : list (string * value))
  : list (string * value) :=
  match props with
  | [] => [(k, v)]
  | (k', x) :: rest =>
      if String.eqb k k' then (k, v) :: rest else (k', x) :: assign k v rest
  end.

Definition setProp (o : value) (k : string) (v : value) : value :=
  match o with
  | VObj props => VObj (assign k v props)
  | _ => o
  end.

(** The configuration file holds a JSON object; a configuration is the list
    of its properties. *)
Definition Config : Type := list (string * value).

(** [config.jobs || []], which must be an array for [find], [findIndex] and
    [map] to exist ([None]: a [TypeError]). *)
Definition jobsOf (config : Config) : option (list value) :=
  match or_else (assoc "jobs" config) (VArr []) with
  | VArr jobs => Some jobs
  | _ => None
  end.

(** [jobs.findIndex(j => j.id === id)] together with
    [jobs.find(j => j.id === id)]: the first job with that identifier and
    its index.  The outer [None] is the [TypeError] of reading [j.id] of a
    [null] entry that comes before any match. *)
Fixpoint findJob (id : value) (jobs : list value) : option (option (nat * value)) :=
  match jobs with
  | [] => Some None
  | j :: rest =>
      match get j "id" with
      | None => None
      | Some jid =>
          if strictEq jid id then Some (Some (0%nat, j))
          else
            match findJob id rest with
            | Some (Some (i, x)) => Some (Some (S i, x))
            | other => other
            end
      end
  end.

(** [jobs[i] = x] and [jobs.splice(i, 1)] *)
Fixpoint replaceAt (i : nat) (x : value) (jobs : list value) : list value :=
  match jobs, i with
  | [], _ => []
  | _ :: rest, O => x :: rest
  | j :: rest, S i' => j :: replaceAt i' x rest
  end.

Fixpoint removeAt (i : nat) (jobs : list value) : list value :=
  match jobs, i with
  | [], _ => []
  | _ :: rest, O => rest
  | j :: rest, S i' => j :: removeAt i' rest
  end.

(** What [res.send(data, code)] sends: the status code, and the job the
    data carries when the request succeeded (as [job] or [deleted_job]);
    messages are left out. *)
Record Response : Type := {
  status : nat;
  sentJob : option value
}.

Definition sendStatus (code : nat) : Response :=
  {| status := code; sentJob := None |}.

(** The adapter every job created through the API gets. *)
Definition placeholderAdapter : value :=
  VObj [("id", VStr "telegram");
        ("fields", VObj [("token", VStr "${BOT_TOKEN}");
                         ("chatId", VStr "${RAW_FEED_CHANNEL_ID}")])].

(** The [newJob] object of the POST handler. *)
Definition newJobOf (body : value) : value :=
  VObj [("id", prop body "id");
        ("name", prop body "name");
        ("enabled", match prop body "enabled" with
                    | VUndefined => VBool true
                    | e => e
                    end);
        ("interval", or_else (prop body "interval") (VNum 180));
        ("user_ids", or_else (prop body "user_ids") (VArr []));
        ("property_type", or_else (prop body "property_type") (VStr "APARTMENT"));
        ("provider", prop body "providers");
        ("notificationAdapter", VArr [placeholderAdapter])].

(** What a handler does before it calls [loadConfig]: it throws ([None]),
    answers at once, or goes on. *)
Definition Checked : Type := option (option Response).

(** What a handler does with the configuration [loadConfig] gave it: the
    response it sends when [saveConfig] succeeds, and the configuration it
    has built and wants saved, if any.  [None] is an exception. *)
Definition Handled : Type := option (Response * option Config).

Definition noCheck : Checked := Some None.

(** GET /jobs/:id *)
Definition getJob (id : string) (config : Config) : Handled :=
  match jobsOf config with
  | None => None
  | Some jobs =>
      match findJob (VStr id) jobs with
      | None => None
      | Some (Some (_, j)) =>
          if truthy j
          then Some ({| status := 200; sentJob := Some j |}, None)
          else Some (sendStatus 404, None)
      | Some None => Some (sendStatus 404, None)
      end
  end.

(** POST /jobs: the destructuring of [req.body] and the test for the
    required fields ... *)
Definition postJob_check (body : value) : Checked :=
  match get body "id" with
  | None => None
  | Some id =>
      if negb (truthy id) || negb (truthy (prop body "name"))
         || negb (truthy (prop body "providers"))
         || negb (isArray (prop body "providers"))
      then Some (Some (sendStatus 400))
      else Some None
  end.

(** ... and the rest of the handler. *)
Definition postJob (body : value) (config : Config) : Handled :=
  match jobsOf config with
  | None => None
  | Some jobs =>
      match findJob (prop body "id") jobs with
      | None => None
      | Some found =>
          if match found with Some (_, j) => truthy j | None => false end
          then Some (sendStatus 409, None)
          else
            Some ({| status := 201; sentJob := Some (newJobOf body) |},
                  Some (assign "jobs" (VArr (jobs ++ [newJobOf body])) config))
      end
  end.

(** [if (x !== undefined) job.k = x] *)
Definition setIfDefined (k : string) (x : value) (j : value) : value :=
  match x with
  | VUndefined => j
  | _ => setProp j k x
  end.

(** PATCH /jobs/:id: the destructuring of [req.body] ... *)
Definition patchJob_check (body : value) : Checked :=
  match get body "user_ids" with
  | None => None
  | Some _ => Some None
  end.

(** ... and the rest of the handler. *)
Definition patchJob (id : string) (body : value) (config : Config) : Handled :=
  match jobsOf config with
  | None => None
  | Some jobs =>
      match findJob (VStr id) jobs with
      | None => None
      | Some None => Some (sendStatus 404, None)
      | Some (Some (i, j)) =>
          let j' := setIfDefined "enabled" (prop body "enabled")
                      (setIfDefined "user_ids" (prop body "user_ids") j) in
          Some ({| status := 200; sentJob := Some j' |},
                Some (assign "jobs" (VArr (replaceAt i j' jobs)) config))
      end
  end.

(** DELETE /jobs/:id *)
Definition deleteJob (id : string) (config : Config) : Handled :=
  match jobsOf config with
  | None => None
  | Some jobs =>
      match findJob (VStr id) jobs with
      | None => None
      | Some None => Some (sendStatus 404, None)
      | Some (Some (i, j)) =>
          Some ({| status := 200; sentJob := Some j |},
                Some (assign "jobs" (VArr (removeAt i jobs)) config))
      end
  end.

(** *** loadConfig, saveConfig and the cache *)

(** config.json as the router sees it. *)
Inductive File : Type :=
| Missing                          (* [fs.stat] throws *)
| Unreadable (mtime : Z)           (* [readFile] or [JSON.parse] throws *)
| Holds (config : Config) (mtime : Z).

Record ApiState : Type := {
  file : File;
  configCache : option Config;
  configLastModified : option Z
}.

(** [loadConfig]: the cached object while the file is not newer than the
    cache, else the file, parsed afresh and cached.  [None]: it throws. *)
Definition loadConfig (st : ApiState) : option (Config * ApiState) :=
  let fresh :=
    match file st with
    | Holds config mtime =>
        Some (config, {| file := file st; configCache := Some config;
                         configLastModified := Some mtime |})
    | _ => None
    end in
  match file st with
  | Missing => None
  | Unreadable mtime | Holds _ mtime =>
      match configCache st, configLastModified st with
      | Some cached, Some lastModified =>
          if mtime <=? lastModified then Some (cached, st) else fresh
      | _, _ => fresh
      end
  end.

(** [saveConfig(config)] at time [now]; [None]: [writeFile] throws. *)
Definition saveConfig (config : Config) (now : Z) (writeWorks : bool) (st : ApiState)
  : option ApiState :=
  if writeWorks then
    Some {| file := Holds config now; configCache := Some config;
            configLastModified := Some now |}
  else None.

(** One request through a handler.  The handler works on the object
    [loadConfig] returned, which is the cached object, and changes it in
    place before it calls [saveConfig]: when the save throws, the file is as
    it was but the cache already holds the change.  Whatever is thrown ends
    in the handler's [catch], which answers 500. *)
Definition serve (check : Checked) (handler : Config -> Handled)
    (now : Z) (writeWorks : bool) (st : ApiState) : Response * ApiState :=
  match check with
  | None => (sendStatus 500, st)
  | Some (Some response) => (response, st)
  | Some None =>
      match loadConfig st with
      | None => (sendStatus 500, st)
      | Some (config, st1) =>
          match handler config with
          | None => (sendStatus 500, st1)
          | Some (response, None) => (response, st1)
          | Some (response, Some config') =>
              let st2 := {| file := file st1; configCache := Some config';
                            configLastModified := configLastModified st1 |} in
              match saveConfig config' now writeWorks st2 with
              | Some st3 => (response, st3)
              | None => (sendStatus 500, st2)
              end
          end
      end
  end.

(** The four routes on a job. *)
Inductive Request : Type :=
| GetJob (id : string)
| PostJob (body : value)
| PatchJob (id : string) (body : value)
| DeleteJob (id : string).

Definition route (r : Request) (now : Z) (writeWorks : bool) (st : ApiState)
  : Response * ApiState :=
  match r with
  | GetJob id => serve noCheck (getJob id) now writeWorks st
  | PostJob body => serve (postJob_check body) (postJob body) now writeWorks st
  | PatchJob id body => serve (patchJob_check body) (patchJob id body) now writeWorks st
  | DeleteJob id => serve noCheck (deleteJob id) now writeWorks st
  end.

End ExternalApi.

(* ===================================================================== *)
(** ** Properties of the reconciler *)
(* ===================================================================== *)

Module ConfigSyncProofs.
Import ConfigSync.

(** What [syncJobToDatabase] writes for one declarative job: nothing, or one
    row under the job's identifier.  It does not depend on the store. *)
Definition writeOf (currentConfig jobConfig : value) : option (string * JobRow) :=
  match prop jobConfig "id" with
  | VStr k =>
      if truthy (VStr k) then
        match jobNotificationAdapters jobConfig currentConfig with
        | Some (a :: l) => Some (k, row (jobDataOf jobConfig (a :: l)))
        | _ => None
        end
      else None
  | _ => None
  end.

Definition writes (currentConfig : value) (items : list value) : list (string * JobRow) :=
  omap (writeOf currentConfig) items.

Definition applyWrites (ws : list (string * JobRow)) (db : gmap string JobRow)
  : gmap string JobRow :=
  fold_left (fun d kr => <[kr.1 := kr.2]> d) ws db.

Lemma get_Some_prop o k v : get o k = Some v -> v = prop o k.
Proof. destruct o; simpl; congruence. Qed.

Lemma syncJobToDatabase_write jobConfig currentConfig db id :
  get jobConfig "id" = Some id ->
  syncJobToDatabase jobConfig currentConfig db =
  Some (match writeOf currentConfig jobConfig with
        | Some (k, r) => (true, <[k := r]> db)
        | None => (false, db)
        end).
Proof.
  intros Hid. pose proof (get_Some_prop _ _ _ Hid) as ->.
  unfold syncJobToDatabase, syncJob_try, writeOf, upsertJob. rewrite Hid.
  simpl jobId. simpl row at 1.
  destruct (prop jobConfig "id") eqn:Hp; simpl;
    try reflexivity;
    try (destruct (jobNotificationAdapters jobConfig currentConfig) as [[|a l]|];
         reflexivity).
  - destruct b; [|reflexivity].
    destruct (jobNotificationAdapters jobConfig currentConfig) as [[|a l]|];
      reflexivity.
  - destruct (n =? 0)%Z; [reflexivity|].
    destruct (jobNotificationAdapters jobConfig currentConfig) as [[|a l]|];
      reflexivity.
  - destruct (String.eqb s EmptyString); [reflexivity|]. simpl.
    destruct (jobNotificationAdapters jobConfig currentConfig) as [[|a l]|];
      try reflexivity.
    simpl. rewrite Hp. reflexivity.
Qed.

Lemma syncEach_writes currentConfig items : forall ids db s k,
  jobIds items = Some ids ->
  exists s' k', syncEach items currentConfig db s k
                = inl (applyWrites (writes currentConfig items) db, s', k').
Proof.
  induction items as [|jc items IH]; intros ids db s k Hids; simpl in *.
  - eauto.
  - destruct (get jc "id") as [id|] eqn:Hid; [|discriminate].
    destruct (jobIds items) as [ids'|] eqn:Hids'; [|discriminate].
    rewrite (syncJobToDatabase_write _ _ _ _ Hid).
    unfold writes; simpl. fold (writes currentConfig items).
    destruct (writeOf currentConfig jc) as [[k0 r0]|]; simpl.
    + apply (IH ids'). reflexivity.
    + apply (IH ids'). reflexivity.
Qed.

Lemma has_true ids k : has ids k = true <-> VStr k ∈ ids.
Proof.
  unfold has. rewrite existsb_exists. split.
  - intros [v [Hin Hv]]. destruct v; try discriminate.
    apply String.eqb_eq in Hv. subst. by apply list_elem_of_In.
  - intros Hin. exists (VStr k). split; [by apply list_elem_of_In|].
    apply String.eqb_refl.
Qed.

Lemma jobIds_elem items : forall ids jc,
  jobIds items = Some ids -> jc ∈ items ->
  exists id, get jc "id" = Some id /\ id ∈ ids.
Proof.
  induction items as [|x items IH]; intros ids jc Hids Hin; simpl in *.
  - by apply elem_of_nil in Hin.
  - destruct (get x "id") as [id|] eqn:Hid; [|discriminate].
    destruct (jobIds items) as [ids'|] eqn:Hids'; [|discriminate].
    injection Hids as <-. apply elem_of_cons in Hin as [->|Hin].
    + exists id. split; [done|]. apply elem_of_cons; by left.
    + destruct (IH ids' jc eq_refl Hin) as [id' [H1 H2]].
      exists id'. split; [done|]. apply elem_of_cons; by right.
Qed.

Lemma writeOf_Some currentConfig jc k r :
  writeOf currentConfig jc = Some (k, r) ->
  prop jc "id" = VStr k /\ userId r = CONFIG_SYNC_USER_ID.
Proof.
  unfold writeOf. destruct (prop jc "id") eqn:Hp; try discriminate.
  destruct (truthy (VStr s)); try discriminate.
  destruct (jobNotificationAdapters jc currentConfig) as [[|a l]|]; try discriminate.
  intros [= <- <-]. split; reflexivity.
Qed.

Lemma writes_has currentConfig items ids k r :
  jobIds items = Some ids -> (k, r) ∈ writes currentConfig items ->
  has ids k = true /\ userId r = CONFIG_SYNC_USER_ID.
Proof.
  intros Hids Hin. unfold writes in Hin.
  apply list_elem_of_omap in Hin as [jc [Hjc Hw]].
  apply writeOf_Some in Hw as [Hk Hu].
  destruct (jobIds_elem _ _ _ Hids Hjc) as [id [Hget Hid]].
  apply get_Some_prop in Hget. subst id. rewrite Hk in Hid.
  split; [by apply has_true | done].
Qed.

Lemma applyWrites_notin ws : forall (db : gmap string JobRow) (k : string),
  k ∉ ws.*1 -> applyWrites ws db !! k = db !! k.
Proof.
  induction ws as [|[k' r'] ws IH]; intros db k Hk; simpl in *; [done|].
  apply not_elem_of_cons in Hk as [Hne Hk].
  unfold applyWrites in *. simpl. rewrite IH by done.
  by apply lookup_insert_ne.
Qed.

Lemma applyWrites_in ws : forall (db : gmap string JobRow) (k : string),
  k ∈ ws.*1 ->
  exists r, (k, r) ∈ ws /\ forall db', applyWrites ws db' !! k = Some r.
Proof.
  induction ws as [|[k' r'] ws IH]; intros db k Hk; simpl in *.
  - by apply elem_of_nil in Hk.
  - destruct (decide (k ∈ ws.*1)) as [Hin|Hnin].
    + destruct (IH db k Hin) as [r [Hr Hall]].
      exists r. split; [apply elem_of_cons; by right|].
      intros db'. unfold applyWrites in *. simpl. apply Hall.
    + apply elem_of_cons in Hk as [->|Hk]; [|done].
      exists r'. split; [apply elem_of_cons; by left|].
      intros db'. change (applyWrites ws (<[k' := r']> db') !! k' = Some r').
      rewrite applyWrites_notin by done. apply lookup_insert_eq.
Qed.

Lemma lookup_removeAll rs : forall (db : gmap string JobRow) (k : string),
  removeAll rs db !! k = if decide (k ∈ rs.*1) then None else db !! k.
Proof.
  induction rs as [|[k' r'] rs IH]; intros db k.
  - case_decide as H; [by apply elem_of_nil in H | done].
  - change (removeAll rs (removeJob k' db) !! k
            = if decide (k ∈ k' :: rs.*1) then None else db !! k).
    rewrite IH. unfold removeJob.
    destruct (decide (k ∈ rs.*1)) as [Hin|Hnin].
    + rewrite decide_True; [done | apply elem_of_cons; by right].
    + destruct (decide (k = k')) as [->|Hne].
      * rewrite decide_True; [apply lookup_delete_eq | apply elem_of_cons; by left].
      * rewrite decide_False.
        -- by apply lookup_delete_ne.
        -- intros [?|?]%elem_of_cons; done.
Qed.

Lemma elem_of_jobsToRemove db ids k r :
  (k, r) ∈ jobsToRemove (existingJobsOf db) ids <->
  db !! k = Some r /\ userId r = CONFIG_SYNC_USER_ID /\ has ids k = false.
Proof.
  unfold jobsToRemove, existingJobsOf, getJobs.
  rewrite list_elem_of_In, !filter_In, <- list_elem_of_In, elem_of_map_to_list.
  simpl. rewrite String.eqb_eq, negb_true_iff. tauto.
Qed.

Lemma elem_of_toRemove_keys db ids k :
  k ∈ (jobsToRemove (existingJobsOf db) ids).*1 <->
  exists r, db !! k = Some r /\ userId r = CONFIG_SYNC_USER_ID /\ has ids k = false.
Proof.
  rewrite list_elem_of_fmap. split.
  - intros [[k' r] [-> Hin]]. exists r. by apply elem_of_jobsToRemove.
  - intros [r Hr]. exists (k, r). split; [done | by apply elem_of_jobsToRemove].
Qed.

(** [reconcile] either completes, and then the new store is the old one
    with the writes applied and the stale owned jobs deleted, or it stops
    early and leaves the store as it was; which of the two depends on the
    configuration only. *)
Lemma reconcile_cases currentConfig :
  (exists items ids,
      configJobsOf currentConfig = Some (VArr items) /\ items <> [] /\
      jobIds items = Some ids /\
      forall db, exists a b,
        reconcile currentConfig db =
        (removeAll (jobsToRemove (existingJobsOf db) ids)
                   (applyWrites (writes currentConfig items) db),
         Completed a b (List.length (jobsToRemove (existingJobsOf db) ids))))
  \/ (forall db, exists o,
        reconcile currentConfig db = (db, o) /\ forall a b c, o <> Completed a b c).
Proof.
  unfold reconcile.
  destruct (configJobsOf currentConfig) as [configJobs|] eqn:Hc.
  2:{ right. intros db. eexists. split; [reflexivity | discriminate]. }
  destruct configJobs as [| |b|n|s|items|props].
  1-5: right; intros db; simpl;
       try (destruct (Z.of_nat (String.length s)));
       eexists; (split; [reflexivity | discriminate]).
  - destruct items as [|jc items].
    { right. intros db. eexists. split; [reflexivity | discriminate]. }
    destruct (jobIds (jc :: items)) as [ids|] eqn:Hids.
    + left. exists (jc :: items), ids.
      split; [reflexivity|]. split; [discriminate|]. split; [exact Hids|].
      intros db.
      destruct (syncEach_writes currentConfig (jc :: items) ids db 0%nat 0%nat Hids)
        as [a [b Heq]].
      exists a, b. cbn [length_of List.length Z.of_nat]. rewrite Heq. reflexivity.
    + right. intros db. cbn [length_of List.length Z.of_nat].
      eexists. split; [reflexivity | discriminate].
  - right. intros db. cbn [length_of].
    destruct (prop (VObj props) "length") as [| |b|n|s|l|l];
      try destruct n; eexists; (split; [reflexivity | discriminate]).
Qed.

Lemma reconcile_idempotent currentConfig db :
  let db1 := fst (reconcile currentConfig db) in
  fst (reconcile currentConfig db1) = db1 /\
  removedCount (snd (reconcile currentConfig db1)) = 0%nat.
Proof.
  intros db1. subst db1.
  destruct (reconcile_cases currentConfig)
    as [(items & ids & Hc & Hne & Hids & Hrun) | Hstop].
  2:{ destruct (Hstop db) as [o [-> Ho]]. simpl.
      destruct (Hstop db) as [o' [-> Ho']]. simpl. split; [done|].
      destruct o'; try reflexivity. by destruct (Ho' syncedCount skippedCount removed). }
  destruct (Hrun db) as [a [b ->]]. cbn [fst].
  set (ws := writes currentConfig items).
  set (db1 := removeAll (jobsToRemove (existingJobsOf db) ids) (applyWrites ws db)).
  destruct (Hrun db1) as [a' [b' ->]]. cbn [fst snd].
  assert (Hnone : forall k r,
             db1 !! k = Some r -> userId r = CONFIG_SYNC_USER_ID -> has ids k = true).
  { intros k r Hk Hu. subst db1. rewrite lookup_removeAll in Hk.
    case_decide as Hrem; [discriminate|].
    destruct (decide (k ∈ ws.*1)) as [Hin|Hnin].
    - destruct (applyWrites_in ws db k Hin) as [r' [Hr' _]].
      by destruct (writes_has _ _ _ _ _ Hids Hr').
    - rewrite applyWrites_notin in Hk by done.
      destruct (has ids k) eqn:Hh; [done|].
      destruct Hrem. apply elem_of_toRemove_keys. eauto. }
  assert (Hempty : jobsToRemove (existingJobsOf db1) ids = []).
  { destruct (jobsToRemove (existingJobsOf db1) ids) as [|[k r] l] eqn:Hl; [done|].
    assert (Hin : (k, r) ∈ jobsToRemove (existingJobsOf db1) ids)
      by (rewrite Hl; apply elem_of_cons; by left).
    apply elem_of_jobsToRemove in Hin as (H1 & H2 & H3).
    rewrite (Hnone k r H1 H2) in H3. discriminate. }
  rewrite Hempty. split.
  - apply map_eq. intros k. rewrite lookup_removeAll.
    rewrite decide_False by (simpl; apply not_elem_of_nil).
    destruct (decide (k ∈ ws.*1)) as [Hin|Hnin].
    + destruct (applyWrites_in ws db k Hin) as [r' [Hr' Hall]].
      rewrite Hall. subst db1. rewrite lookup_removeAll.
      rewrite decide_False; [by rewrite Hall|].
      intros (r & _ & _ & Hh)%elem_of_toRemove_keys.
      destruct (writes_has _ _ _ _ _ Hids Hr') as [Hh' _]. congruence.
    + by rewrite applyWrites_notin.
  - reflexivity.
Qed.

(** The job store, the flag and the log of a run, in terms of
    [reconcile]. *)
Lemma sync_unfold env file now st :
  let r := syncConfigJobsToDatabase env file now st in
  jobs (fst r) =
    (if syncInProgress st then jobs st
     else match file with
          | Some parsed => fst (reconcile (replaceEnvPlaceholdersSimple env parsed) (jobs st))
          | None => jobs st
          end) /\
  snd r =
    (if syncInProgress st then AlreadyInProgress
     else match file with
          | Some parsed => snd (reconcile (replaceEnvPlaceholdersSimple env parsed) (jobs st))
          | None => Failed
          end) /\
  syncInProgress (fst r) = syncInProgress st.
Proof.
  unfold syncConfigJobsToDatabase.
  destruct (syncInProgress st) eqn:Hs; [simpl; auto|].
  destruct file as [parsed|]; [|done].
  destruct (reconcile (replaceEnvPlaceholdersSimple env parsed) (jobs st)) as [db o].
  by destruct o.
Qed.

Lemma declaredIds_completed env parsed items ids :
  configJobsOf (replaceEnvPlaceholdersSimple env parsed) = Some (VArr items) ->
  jobIds items = Some ids ->
  declaredIds env (Some parsed) = ids.
Proof. intros H1 H2. unfold declaredIds. by rewrite H1, H2. Qed.

(** After a completed run every job of the synthetic owner is one the
    declarative source declares. *)
Lemma sync_completed_purges env file now st a b c k r :
  snd (syncConfigJobsToDatabase env file now st) = Completed a b c ->
  jobs (fst (syncConfigJobsToDatabase env file now st)) !! k = Some r ->
  userId r = CONFIG_SYNC_USER_ID ->
  has (declaredIds env file) k = true.
Proof.
  destruct (sync_unfold env file now st) as (-> & -> & _).
  destruct (syncInProgress st); [discriminate|].
  destruct file as [parsed|]; [|discriminate].
  destruct (reconcile_cases (replaceEnvPlaceholdersSimple env parsed))
    as [(items & ids & Hc & Hne & Hids & Hrun) | Hstop].
  2:{ destruct (Hstop (jobs st)) as [o [-> Ho]]. simpl. intros ->.
      by destruct (Ho a b c). }
  rewrite (declaredIds_completed _ _ _ _ Hc Hids).
  destruct (Hrun (jobs st)) as [a' [b' ->]]. cbn [fst snd]. intros _ Hk Hu.
  rewrite lookup_removeAll in Hk. case_decide as Hrem; [discriminate|].
  set (ws := writes (replaceEnvPlaceholdersSimple env parsed) items) in *.
  destruct (decide (k ∈ ws.*1)) as [Hin|Hnin].
  - destruct (applyWrites_in ws (jobs st) k Hin) as [r' [Hr' _]].
    by destruct (writes_has _ _ _ _ _ Hids Hr').
  - rewrite applyWrites_notin in Hk by done.
    destruct (has ids k) eqn:Hh; [done|].
    destruct Hrem. apply elem_of_toRemove_keys. eauto.
Qed.

(** *** The reconciler's claims *)

Definition telegramGlobal : value :=
  VObj [("type", VStr "telegram"); ("botToken", VStr "T"); ("chatId", VStr "C")].

Definition telegramArgs : value :=
  VObj [("id", VStr "telegram");
        ("args", VObj [("token", VStr "T"); ("chatId", VStr "C")])].

Definition telegramCanonical : value :=
  VObj [("id", VStr "telegram");
        ("fields", VObj [("token", VStr "T"); ("chatId", VStr "C")])].

Definition noEnv : Env := {| BOT_TOKEN := None; RAW_FEED_CHANNEL_ID := None |}.

Definition secretsEnv : Env :=
  {| BOT_TOKEN := Some "T"; RAW_FEED_CHANNEL_ID := Some "C" |}.

Definition emptyState : SyncState :=
  {| syncInProgress := false; lastSyncTime := None; users := ∅; jobs := ∅ |}.

(** config.json with one job "a" and a global adapter. *)
Definition sourceWithA : value :=
  VObj [("adapters", VArr [telegramGlobal]);
        ("jobs", VArr [VObj [("id", VStr "a"); ("enabled", VBool true);
                             ("provider", VArr [VObj [("id", VStr "p1")]])]])].

(** The same file after "a" was taken out of it. *)
Definition sourceWithoutA : value :=
  VObj [("adapters", VArr [telegramGlobal]); ("jobs", VArr [])].

Definition rowA : JobRow :=
  {| name := VStr "a"; enabled := true;
     provider := VArr [VObj [("id", VStr "p1")]];
     notificationAdapter := [telegramCanonical];
     userId := CONFIG_SYNC_USER_ID;
     shareWithUsers := VArr []; blacklist := VArr [] |}.

(** C1: a sync is to delete every job of the synthetic owner whose
    identifier the declarative source no longer lists.  At the source whose
    only job "a" was removed the job list is empty, the run takes the early
    return of the "no jobs" test and deletes nothing: the store that the
    first sync filled with "a" still holds "a", owned by [config_sync],
    after the second sync. *)
Theorem sync_empty_source_keeps_stale_job :
  let st1 := fst (syncConfigJobsToDatabase noEnv (Some sourceWithA) 1 emptyState) in
  let r2 := syncConfigJobsToDatabase noEnv (Some sourceWithoutA) 2 st1 in
  jobs st1 = {[ "a" := rowA ]} /\
  has (declaredIds noEnv (Some sourceWithoutA)) "a" = false /\
  snd r2 = NoJobs /\
  jobs (fst r2) !! "a" = Some rowA /\
  userId rowA = CONFIG_SYNC_USER_ID.
Proof. vm_compute. repeat split; reflexivity. Qed.

(** C5: a job whose owner is not the synthetic owner is never removed by a
    sync: its identifier is still in the store afterwards, and unless the
    declarative source itself lists that identifier (the job is then
    overwritten by the declared one) the job is there unchanged. *)
Theorem sync_keeps_foreign_jobs env file now st k r :
  jobs st !! k = Some r ->
  userId r <> CONFIG_SYNC_USER_ID ->
  is_Some (jobs (fst (syncConfigJobsToDatabase env file now st)) !! k) /\
  (has (declaredIds env file) k = true \/
   jobs (fst (syncConfigJobsToDatabase env file now st)) !! k = Some r).
Proof.
  intros Hk Hown.
  destruct (sync_unfold env file now st) as (-> & _ & _).
  destruct (syncInProgress st); [by eauto|].
  destruct file as [parsed|]; [|by eauto].
  destruct (reconcile_cases (replaceEnvPlaceholdersSimple env parsed))
    as [(items & ids & Hc & Hne & Hids & Hrun) | Hstop].
  2:{ destruct (Hstop (jobs st)) as [o [-> _]]. simpl. by eauto. }
  rewrite (declaredIds_completed _ _ _ _ Hc Hids).
  destruct (Hrun (jobs st)) as [a [b ->]]. cbn [fst].
  rewrite lookup_removeAll.
  rewrite decide_False.
  2:{ intros (r' & Hr' & Hu & _)%elem_of_toRemove_keys. congruence. }
  set (ws := writes (replaceEnvPlaceholdersSimple env parsed) items).
  destruct (decide (k ∈ ws.*1)) as [Hin|Hnin].
  - destruct (applyWrites_in ws (jobs st) k Hin) as [r' [Hr' Hall]].
    rewrite Hall. split; [by eauto|].
    destruct (writes_has _ _ _ _ _ Hids Hr') as [Hh _]. by left.
  - rewrite applyWrites_notin by done. by eauto.
Qed.

Definition rowUi : JobRow :=
  {| name := VStr "mine"; enabled := true; provider := VArr [];
     notificationAdapter := [telegramCanonical]; userId := "admin";
     shareWithUsers := VArr []; blacklist := VArr [] |}.

Definition stateWithUiJob : SyncState :=
  {| syncInProgress := false; lastSyncTime := None; users := ∅;
     jobs := {[ "ui" := rowUi ]} |}.

Lemma sync_keeps_foreign_jobs_witness :
  is_Some (jobs (fst (syncConfigJobsToDatabase noEnv (Some sourceWithA) 1
                        stateWithUiJob)) !! "ui") /\
  (has (declaredIds noEnv (Some sourceWithA)) "ui" = true \/
   jobs (fst (syncConfigJobsToDatabase noEnv (Some sourceWithA) 1 stateWithUiJob))
     !! "ui" = Some rowUi).
Proof.
  apply (sync_keeps_foreign_jobs noEnv (Some sourceWithA) 1 stateWithUiJob "ui" rowUi).
  - reflexivity.
  - discriminate.
Defined.


(** C8: the four shapes of a notification adapter. *)
Theorem convertNotificationAdapter_shapes :
  convertNotificationAdapter telegramGlobal = telegramCanonical /\
  convertNotificationAdapter telegramArgs = telegramCanonical /\
  convertNotificationAdapter telegramCanonical = telegramCanonical /\
  convertNotificationAdapter (VObj []) = VNull /\
  convertAll [VObj []] = [].
Proof. repeat split; reflexivity. Qed.

(** config.json with secrets in a nested object, in a plain string field
    and in strings that are direct elements of an array. *)
Definition sourceWithSecrets : value :=
  VObj [("jobs",
         VArr [VObj [("id", VStr "a");
                     ("name", VStr "${BOT_TOKEN}/${RAW_FEED_CHANNEL_ID}");
                     ("notificationAdapter",
                      VArr [VObj [("id", VStr "telegram");
                                  ("args", VObj [("token", VStr "${BOT_TOKEN}");
                                                 ("chatId", VStr "${RAW_FEED_CHANNEL_ID}")])]]);
                     ("blacklist", VArr [VStr "${BOT_TOKEN}"])]])].

(** C9: every placeholder in a string field is to be resolved before the
    job is persisted, also in strings directly inside arrays.  With
    BOT_TOKEN=T and RAW_FEED_CHANNEL_ID=C set, the row persisted for
    [sourceWithSecrets] has the placeholders of the nested adapter object
    resolved, but the string element of the [blacklist] array is stored as
    the placeholder text, and the name, which holds both placeholders, keeps
    the first one. *)
Theorem sync_persists_unresolved_placeholders :
  jobs (fst (syncConfigJobsToDatabase secretsEnv (Some sourceWithSecrets) 1 emptyState))
    !! "a"
  = Some {| name := VStr "${BOT_TOKEN}/C"; enabled := true; provider := VArr [];
            notificationAdapter := [telegramCanonical];
            userId := CONFIG_SYNC_USER_ID;
            shareWithUsers := VArr [];
            blacklist := VArr [VStr "${BOT_TOKEN}"] |}.
Proof. vm_compute. reflexivity. Qed.

(** The start-up variant, [replaceEnvPlaceholders], resolves a placeholder
    that is a direct element of an array; the variant used by the sync
    leaves it. *)
Example startup_variant_resolves_array_strings :
  Orchestrator.replaceEnvPlaceholders secretsEnv
    (VObj [("blacklist", VArr [VStr "${BOT_TOKEN}"])])
  = VObj [("blacklist", VArr [VStr "T"])] /\
  replaceEnvPlaceholdersSimple secretsEnv
    (VObj [("blacklist", VArr [VStr "${BOT_TOKEN}"])])
  = VObj [("blacklist", VArr [VStr "${BOT_TOKEN}"])].
Proof. split; reflexivity. Qed.

Lemma truthy_prop_obj o k : truthy (prop o k) = true -> truthy o = true.
Proof. destruct o; simpl; congruence. Qed.

Lemma elem_of_convertAll a items :
  a ∈ items -> truthy (convertNotificationAdapter a) = true ->
  convertNotificationAdapter a ∈ convertAll items.
Proof.
  intros Hin Ht. unfold convertAll.
  apply list_elem_of_In, filter_In. split; [|done].
  apply in_map. by apply list_elem_of_In.
Qed.

(** C10: an adapter with a truthy [id], without [fields] and [args], and
    not of the global type/botToken/chatId shape, converts to
    [{id, fields: {}}]; a job that lists it has a non-empty adapter list of
    its own, so the global adapters are not consulted. *)
Theorem adapter_with_id_only_is_kept adapter jobConfig currentConfig items :
  truthy (prop adapter "id") = true ->
  prop adapter "fields" = VUndefined ->
  prop adapter "args" = VUndefined ->
  truthy (prop adapter "type") && truthy (prop adapter "botToken")
    && truthy (prop adapter "chatId") = false ->
  prop jobConfig "notificationAdapter" = VArr items ->
  adapter ∈ items ->
  convertNotificationAdapter adapter
    = VObj [("id", prop adapter "id"); ("fields", VObj [])] /\
  VObj [("id", prop adapter "id"); ("fields", VObj [])] ∈ convertAll items /\
  jobNotificationAdapters jobConfig currentConfig = Some (convertAll items).
Proof.
  intros Hid Hf Ha Hg Hitems Hin.
  assert (Hconv : convertNotificationAdapter adapter
                  = VObj [("id", prop adapter "id"); ("fields", VObj [])]).
  { unfold convertNotificationAdapter.
    rewrite (truthy_prop_obj _ _ Hid), Hg, Hid, Hf, Ha. reflexivity. }
  split; [exact Hconv|].
  assert (Hmem : VObj [("id", prop adapter "id"); ("fields", VObj [])]
                 ∈ convertAll items).
  { rewrite <- Hconv. apply elem_of_convertAll; [done|]. by rewrite Hconv. }
  split; [exact Hmem|].
  unfold jobNotificationAdapters. rewrite Hitems.
  destruct (convertAll items) as [|x l]; [by apply elem_of_nil in Hmem|].
  reflexivity.
Qed.

(** A job that lists the bare adapter [{id: "console"}], in a file that
    also has a global adapter. *)
Definition jobWithBareAdapter : value :=
  VObj [("id", VStr "a");
        ("notificationAdapter", VArr [VObj [("id", VStr "console")]])].

Lemma adapter_with_id_only_is_kept_witness :
  convertNotificationAdapter (VObj [("id", VStr "console")])
    = VObj [("id", VStr "console"); ("fields", VObj [])] /\
  VObj [("id", VStr "console"); ("fields", VObj [])]
    ∈ convertAll [VObj [("id", VStr "console")]] /\
  jobNotificationAdapters jobWithBareAdapter sourceWithA
    = Some (convertAll [VObj [("id", VStr "console")]]).
Proof.
  apply (adapter_with_id_only_is_kept (VObj [("id", VStr "console")])
           jobWithBareAdapter sourceWithA [VObj [("id", VStr "console")]]);
    try reflexivity.
  constructor.
Defined.

End ConfigSyncProofs.

(* ===================================================================== *)
(** ** Properties of the bounded runner *)
(* ===================================================================== *)

Module RunnerProofs.
Import Orchestrator Orchestrator.Runner.

Local Open Scope list_scope.

(** What holds in every state the interleaving can reach. *)
Record Inv (n : nat) (limit : Z) (st : State) : Prop := {
  inv_cursor : (cursor st <= n)%nat;
  inv_nodup : NoDup (executing st);
  inv_started : forall i, i ∈ executing st -> (i < cursor st)%nat;
  inv_cover : forall i, (i < cursor st)%nat ->
                        i ∈ (settled st).*1 \/ i ∈ executing st;
  inv_size : Z.of_nat (List.length (executing st)) <= maxParallel limit;
  inv_phase :
    match phase st with
    | Looping => Z.of_nat (List.length (executing st)) < maxParallel limit
    | AwaitingNext raced =>
        NoDup raced /\ executing st ⊆ raced /\ raced <> [] /\
        (forall i, i ∈ raced -> (i < cursor st)%nat) /\
        Z.of_nat (List.length raced) <= maxParallel limit
    | AwaitingAll snapshot =>
        cursor st = n /\
        (forall i, (i < n)%nat -> i ∈ (settled st).*1 \/ i ∈ snapshot) /\
        (forall i, i ∈ snapshot -> (i < cursor st)%nat)
    | Returned => forall i, (i < n)%nat -> i ∈ (settled st).*1
    | Threw => False
    end
}.

Lemma maxParallel_pos limit : 1 <= maxParallel limit.
Proof. unfold maxParallel. lia. Qed.

Lemma maxParallel_id limit : 1 <= limit -> maxParallel limit = limit.
Proof. unfold maxParallel. intros H. destruct (Z.eqb_spec limit 0); lia. Qed.

Lemma start_inv n limit : Inv n limit (start n).
Proof.
  pose proof (maxParallel_pos limit).
  split; simpl.
  - lia.
  - constructor.
  - intros i Hi. by apply elem_of_nil in Hi.
  - intros i Hi. lia.
  - lia.
  - destruct (Nat.eqb_spec n 0); simpl; [intros; lia | lia].
Qed.

Lemma isSettled_true st i : isSettled st i = true <-> i ∈ (settled st).*1.
Proof. unfold isSettled. apply bool_decide_eq_true. Qed.

Lemma elem_of_remove (l : list nat) i j :
  j ∈ List.filter (fun k => negb (Nat.eqb k i)) l <-> j ∈ l /\ j <> i.
Proof.
  rewrite list_elem_of_In, filter_In, <- list_elem_of_In, negb_true_iff.
  rewrite Nat.eqb_neq. tauto.
Qed.

Lemma length_lt_of_missing (l r : list nat) i :
  NoDup l -> l ⊆ r -> i ∈ r -> i ∉ l -> (List.length l < List.length r)%nat.
Proof.
  intros Hnd Hsub Hir Hil.
  assert (Hle : (i :: l) ⊆+ r).
  { apply NoDup_submseteq; [by constructor|].
    intros x [->|Hx]%elem_of_cons; [done | by apply Hsub]. }
  apply submseteq_length in Hle. simpl in Hle. lia.
Qed.

(** Every step keeps the invariant. *)
Lemma step_inv n limit ev st st' :
  Inv n limit st -> step n limit ev st = Some st' -> Inv n limit st'.
Proof.
  intros [Hc Hnd Hst Hcov Hsz Hph] Hstep.
  destruct ev as [|i o|i|i|]; simpl in Hstep.
  - (* Resume *)
    destruct (phase st) eqn:Hp; try discriminate.
    destruct (Nat.ltb_spec (cursor st) n) as [Hlt|Hge].
    + injection Hstep as <-.
      assert (Hfresh : cursor st ∉ executing st).
      { intros Hin. apply Hst in Hin. lia. }
      assert (Hnd' : NoDup (executing st ++ [cursor st])).
      { apply NoDup_app. split; [done|]. split; [|apply NoDup_singleton].
        intros x Hx ->%list_elem_of_singleton. done. }
      assert (Hst' : forall i, i ∈ executing st ++ [cursor st] -> (i < S (cursor st))%nat).
      { intros i [Hi| ->%list_elem_of_singleton]%elem_of_app; [apply Hst in Hi|]; lia. }
      split; simpl; try done; try lia.
      * intros i Hi. destruct (decide (i = cursor st)) as [->|Hne].
        -- right. apply elem_of_app. right. by apply list_elem_of_singleton.
        -- destruct (Hcov i) as [?|?]; [lia | by left |].
           right. apply elem_of_app. by left.
      * rewrite length_app. simpl. lia.
      * rewrite length_app. simpl.
        destruct (Z.geb_spec (Z.of_nat (List.length (executing st) + 1)) (maxParallel limit)).
        -- split; [done|]. split; [done|]. split.
           ++ by destruct (executing st).
           ++ split; [done|]. rewrite length_app. simpl. lia.
        -- lia.
    + injection Hstep as <-. split; simpl; try done.
      split; [lia|]. split; [|done].
      intros i Hi. apply Hcov. lia.
  - (* Settle *)
    destruct (Nat.ltb i (cursor st) && negb (isSettled st i)) eqn:Hg; [|discriminate].
    injection Hstep as <-.
    assert (Hmono : forall j, j ∈ (settled st).*1 -> j ∈ (settled st ++ [(i, o)]).*1).
    { intros j Hj. rewrite fmap_app. apply elem_of_app. by left. }
    split; simpl; try done.
    + intros j Hj. destruct (Hcov j Hj); [left; by apply Hmono | by right].
    + destruct (phase st); try done.
      * destruct Hph as (H1 & H2 & H3). split; [done|]. split; [|done].
        intros j Hj. destruct (H2 j Hj); [left; by apply Hmono | by right].
      * intros j Hj. apply Hmono. by apply Hph.
  - (* Cleanup *)
    destruct (isSettled st i && bool_decide (i ∈ executing st)) eqn:Hg; [|discriminate].
    injection Hstep as <-.
    apply andb_true_iff in Hg as [Hset Hin]. apply isSettled_true in Hset.
    assert (Hlen : (List.length (List.filter (fun j => negb (Nat.eqb j i)) (executing st))
                    <= List.length (executing st))%nat) by apply filter_length_le.
    split; simpl; try done; try lia.
    + by apply NoDup_ListNoDup, List.NoDup_filter, NoDup_ListNoDup.
    + intros j [Hj _]%elem_of_remove. by apply Hst.
    + intros j Hj. destruct (decide (j = i)) as [->|Hne]; [by left|].
      destruct (Hcov j Hj); [by left|]. right. by apply elem_of_remove.
    + destruct (phase st); try done; [lia|].
      destruct Hph as (H1 & H2 & H3). split; [done|]. split; [|done].
      intros j [Hj _]%elem_of_remove. by apply H2.
  - (* RaceWon *)
    destruct (phase st) eqn:Hp; try discriminate.
    destruct (bool_decide (i ∈ raced) && isSettled st i
              && negb (bool_decide (i ∈ executing st))) eqn:Hg; [|discriminate].
    injection Hstep as <-.
    apply andb_true_iff in Hg as [Hg Hout]. apply andb_true_iff in Hg as [Hin Hset].
    apply bool_decide_eq_true in Hin.
    apply negb_true_iff, bool_decide_eq_false in Hout.
    destruct Hph as (H1 & H2 & H3 & H4 & H5).
    pose proof (length_lt_of_missing _ _ _ Hnd H2 Hin Hout).
    split; simpl; try done.
    destruct (outcomeOf st i); simpl; lia.
  - (* AllSettled *)
    destruct (phase st) eqn:Hp; try discriminate.
    destruct (forallb (isSettled st) snapshot) eqn:Hg; [|discriminate].
    injection Hstep as <-.
    destruct Hph as (H1 & H2 & H3).
    split; simpl; try done.
    intros i Hi. destruct (H2 i Hi) as [?|Hs]; [done|].
    rewrite forallb_forall in Hg. apply isSettled_true, Hg.
    by apply list_elem_of_In.
Qed.

Lemma run_inv n limit evs : forall st st',
  Inv n limit st -> run n limit evs st = Some st' -> Inv n limit st'.
Proof.
  induction evs as [|ev evs IH]; intros st st' Hinv Hrun; simpl in Hrun.
  - by injection Hrun as <-.
  - destruct (step n limit ev st) as [st1|] eqn:Hstep; [|discriminate].
    eapply IH; [|done]. by eapply step_inv.
Qed.

Lemma unsettled_spec st i :
  i ∈ unsettled st <-> (i < cursor st)%nat /\ i ∉ (settled st).*1.
Proof.
  unfold unsettled.
  rewrite list_elem_of_In, filter_In, in_seq, negb_true_iff.
  unfold isSettled. rewrite bool_decide_eq_false. intuition lia.
Qed.

Lemma unsettled_nodup st : NoDup (unsettled st).
Proof. apply NoDup_ListNoDup, List.NoDup_filter, List.seq_NoDup. Qed.

(** The promises that have not settled are all in [executing]. *)
Lemma unsettled_le_executing n limit st :
  Inv n limit st ->
  (List.length (unsettled st) <= List.length (executing st))%nat.
Proof.
  intros Hinv. apply submseteq_length, NoDup_submseteq; [apply unsettled_nodup|].
  intros i [Hi Hns]%unsettled_spec.
  destruct (inv_cover _ _ _ Hinv i Hi); done.
Qed.

Lemma unsettled_nil st i :
  unsettled st = [] -> (i < cursor st)%nat -> isSettled st i = true.
Proof.
  intros Hnil Hi. destruct (isSettled st i) eqn:Hs; [done|].
  assert (Hin : i ∈ unsettled st).
  { apply unsettled_spec. split; [done|].
    unfold isSettled in Hs. by apply bool_decide_eq_false in Hs. }
  rewrite Hnil in Hin. by apply elem_of_nil in Hin.
Qed.

(** The runner cannot get stuck: as long as it has not returned, something
    can happen. *)
Lemma step_progress n limit st :
  Inv n limit st -> phase st <> Returned ->
  exists ev st', step n limit ev st = Some st'.
Proof.
  intros Hinv Hret.
  assert (Hsettle : forall i l, unsettled st = i :: l ->
                                exists ev st', step n limit ev st = Some st').
  { intros i l Hu.
    assert (Hi : i ∈ unsettled st) by (rewrite Hu; apply elem_of_cons; by left).
    apply unsettled_spec in Hi as [Hlt Hns].
    exists (Settle i Fulfilled). simpl.
    apply Nat.ltb_lt in Hlt. rewrite Hlt.
    unfold isSettled. rewrite bool_decide_eq_false_2 by done. simpl. eauto. }
  destruct (phase st) eqn:Hp; [| | |done|].
  - exists Resume. simpl. rewrite Hp. destruct (cursor st <? n)%nat; eauto.
  - destruct (unsettled st) as [|i l] eqn:Hu; [|by eapply Hsettle].
    destruct (executing st) as [|j e] eqn:He.
    + pose proof (inv_phase _ _ _ Hinv) as Hph. rewrite Hp in Hph.
      destruct Hph as (_ & _ & Hne & Hlt & _).
      destruct raced as [|r0 raced]; [done|].
      exists (RaceWon r0). simpl. rewrite Hp, He.
      rewrite bool_decide_eq_true_2 by (apply elem_of_cons; by left).
      rewrite (unsettled_nil _ _ Hu) by (apply Hlt, elem_of_cons; by left).
      rewrite bool_decide_eq_false_2 by apply not_elem_of_nil.
      simpl. eauto.
    + exists (Cleanup j). simpl. rewrite He.
      assert (Hj : j ∈ executing st) by (rewrite He; apply elem_of_cons; by left).
      rewrite (unsettled_nil _ _ Hu) by (by apply (inv_started _ _ _ Hinv)).
      rewrite bool_decide_eq_true_2 by (apply elem_of_cons; by left).
      simpl. eauto.
  - destruct (unsettled st) as [|i l] eqn:Hu; [|by eapply Hsettle].
    pose proof (inv_phase _ _ _ Hinv) as Hph. rewrite Hp in Hph.
    destruct Hph as (_ & _ & Hlt).
    exists AllSettled. simpl. rewrite Hp.
    assert (Hall : forallb (isSettled st) snapshot = true).
    { apply forallb_forall. intros i Hi%list_elem_of_In.
      apply (unsettled_nil _ _ Hu). by apply Hlt. }
    rewrite Hall. eauto.
  - pose proof (inv_phase _ _ _ Hinv) as Hph. by rewrite Hp in Hph.
Qed.

(** A measure that every step decreases: no schedule is infinite. *)
Definition rank (p : Phase) : nat :=
  match p with
  | Returned | Threw => 0
  | AwaitingAll _ => 1
  | Looping => 2
  | AwaitingNext _ => 3
  end.

Definition measure (n : nat) (st : State) : nat :=
  6 * (n - cursor st) + 2 * List.length (unsettled st)
  + List.length (executing st) + rank (phase st).

Lemma unsettled_grow st st' :
  settled st' = settled st -> cursor st' = S (cursor st) ->
  (List.length (unsettled st') <= S (List.length (unsettled st)))%nat.
Proof.
  intros Hs Hc. unfold unsettled, isSettled. rewrite Hs, Hc.
  rewrite seq_S, List.filter_app, length_app. simpl.
  destruct (negb _); simpl; lia.
Qed.

Lemma unsettled_same st st' :
  settled st' = settled st -> cursor st' = cursor st ->
  unsettled st' = unsettled st.
Proof. intros Hs Hc. unfold unsettled, isSettled. by rewrite Hs, Hc. Qed.

Ltac same_unsettled st :=
  match goal with
  | |- (measure _ ?s < _)%nat =>
      unfold measure; rewrite (unsettled_same st s eq_refl eq_refl)
  end.

Lemma step_measure n limit ev st st' :
  Inv n limit st -> step n limit ev st = Some st' ->
  (measure n st' < measure n st)%nat.
Proof.
  intros Hinv Hstep.
  destruct ev as [|i o|i|i|]; simpl in Hstep.
  - destruct (phase st) eqn:Hp; try discriminate.
    destruct (Nat.ltb_spec (cursor st) n) as [Hlt|Hge].
    + injection Hstep as <-.
      match goal with
      | |- (measure _ ?s < _)%nat =>
          pose proof (unsettled_grow st s eq_refl eq_refl) as Hu;
          unfold measure; set (k := List.length (unsettled s)) in *
      end.
      cbn [cursor executing settled phase]. rewrite Hp.
      clearbody k. rewrite length_app. simpl List.length.
      destruct (_ >=? _); simpl rank; lia.
    + injection Hstep as <-. same_unsettled st.
      cbn [cursor executing settled phase]. rewrite Hp. simpl. lia.
  - destruct (Nat.ltb i (cursor st) && negb (isSettled st i)) eqn:Hg; [|discriminate].
    injection Hstep as <-.
    apply andb_true_iff in Hg as [Hlt Hns].
    apply Nat.ltb_lt in Hlt. apply negb_true_iff in Hns.
    unfold isSettled in Hns. apply bool_decide_eq_false in Hns.
    set (st' := {| cursor := cursor st; executing := executing st;
                   settled := settled st ++ [(i, o)]; phase := phase st |}).
    assert (Hless : (List.length (unsettled st') < List.length (unsettled st))%nat).
    { apply (length_lt_of_missing _ _ i).
      - apply unsettled_nodup.
      - intros j [Hj Hnj]%unsettled_spec. apply unsettled_spec.
        split; [done|]. intros Hin. apply Hnj. simpl.
        rewrite fmap_app. apply elem_of_app. by left.
      - by apply unsettled_spec.
      - intros [_ Hnj]%unsettled_spec. apply Hnj. simpl.
        rewrite fmap_app. apply elem_of_app. right. simpl.
        by apply list_elem_of_singleton. }
    unfold measure. subst st'. cbn [cursor executing settled phase] in *. lia.
  - destruct (isSettled st i && bool_decide (i ∈ executing st)) eqn:Hg; [|discriminate].
    injection Hstep as <-.
    apply andb_true_iff in Hg as [_ Hin]. apply bool_decide_eq_true in Hin.
    assert (Hless : (List.length (List.filter (fun j => negb (Nat.eqb j i)) (executing st))
                     < List.length (executing st))%nat).
    { apply (length_lt_of_missing _ _ i).
      - apply NoDup_ListNoDup, List.NoDup_filter, NoDup_ListNoDup, (inv_nodup _ _ _ Hinv).
      - intros j [Hj _]%elem_of_remove. done.
      - done.
      - intros [_ Hne]%elem_of_remove. done. }
    same_unsettled st.
    cbn [cursor executing settled phase]. lia.
  - destruct (phase st) eqn:Hp; try discriminate.
    destruct (bool_decide (i ∈ raced) && isSettled st i
              && negb (bool_decide (i ∈ executing st))); [|discriminate].
    injection Hstep as <-. same_unsettled st.
    cbn [cursor executing settled phase]. rewrite Hp.
    destruct (outcomeOf st i); simpl; lia.
  - destruct (phase st) eqn:Hp; try discriminate.
    destruct (forallb (isSettled st) snapshot); [|discriminate].
    injection Hstep as <-. same_unsettled st.
    cbn [cursor executing settled phase]. rewrite Hp. simpl. lia.
Qed.

(** From every reachable state the runner can be driven to its return. *)
Lemma returned_dec (p : Phase) : {p = Returned} + {p <> Returned}.
Proof. destruct p; (by left) || (by right). Qed.

Lemma run_completes n limit : forall m st,
  (measure n st <= m)%nat -> Inv n limit st ->
  exists evs st', run n limit evs st = Some st' /\ phase st' = Returned.
Proof.
  induction m as [|m IH]; intros st Hm Hinv.
  - destruct (returned_dec (phase st)) as [Hr|Hr].
    + exists [], st. done.
    + destruct (step_progress _ _ _ Hinv Hr) as (ev & st1 & Hstep).
      pose proof (step_measure _ _ _ _ _ Hinv Hstep). lia.
  - destruct (returned_dec (phase st)) as [Hr|Hr].
    + exists [], st. done.
    + destruct (step_progress _ _ _ Hinv Hr) as (ev & st1 & Hstep).
      pose proof (step_measure _ _ _ _ _ Hinv Hstep) as Hlt.
      destruct (IH st1) as (evs & st' & Hrun & Hret);
        [lia | by eapply step_inv |].
      exists (ev :: evs), st'. simpl. rewrite Hstep. done.
Qed.

(** C2: with a limit of at least 1, at every step of every interleaving
    at most [limit] promises are unsettled; the runner never rejects; when
    it has returned, every task has settled; and from wherever it stands it
    can be driven to its return. *)
Theorem runWithConcurrency_bounded {T : Type} (tasks : list T) (limit : Z)
    (evs : list Step) (st : State) :
  1 <= limit ->
  runWithConcurrency tasks limit evs = Some st ->
  Z.of_nat (List.length (unsettled st)) <= limit /\
  phase st <> Threw /\
  (phase st = Returned ->
   forallb (isSettled st) (seq 0 (List.length tasks)) = true) /\
  exists more st',
    run (List.length tasks) limit more st = Some st' /\ phase st' = Returned.
Proof.
  intros Hlimit Hrun. unfold runWithConcurrency in Hrun.
  pose proof (run_inv _ _ _ _ _ (start_inv (List.length tasks) limit) Hrun) as Hinv.
  split; [|split; [|split]].
  - pose proof (unsettled_le_executing _ _ _ Hinv).
    pose proof (inv_size _ _ _ Hinv). rewrite maxParallel_id in * by done. lia.
  - intros Hp. pose proof (inv_phase _ _ _ Hinv) as Hph. by rewrite Hp in Hph.
  - intros Hp. pose proof (inv_phase _ _ _ Hinv) as Hph. rewrite Hp in Hph.
    apply forallb_forall. intros i [_ Hi]%in_seq.
    apply isSettled_true, Hph. lia.
  - by apply (run_completes _ _ (measure (List.length tasks) st)).
Qed.

(** Three tasks under a limit of 2; two of them fail. *)
Definition demoSchedule : list Step :=
  [Resume; Resume; Settle 1 Rejected; Cleanup 1; RaceWon 1;
   Resume; Settle 0 Rejected; Settle 2 Fulfilled; Cleanup 0; RaceWon 0;
   Resume; AllSettled].

Definition demoFinal : State :=
  {| cursor := 3; executing := [2%nat];
     settled := [(1, Rejected); (0, Rejected); (2, Fulfilled)]%nat;
     phase := Returned |}.

Lemma runWithConcurrency_bounded_witness :
  Z.of_nat (List.length (unsettled demoFinal)) <= 2 /\
  phase demoFinal <> Threw /\
  (phase demoFinal = Returned ->
   forallb (isSettled demoFinal) (seq 0 (List.length [tt; tt; tt])) = true) /\
  exists more st',
    run (List.length [tt; tt; tt]) 2 more demoFinal = Some st' /\ phase st' = Returned.
Proof.
  apply (runWithConcurrency_bounded [tt; tt; tt] 2 demoSchedule demoFinal).
  - lia.
  - reflexivity.
Defined.

(** With a limit of 1 the second task is not started before the first has
    settled and was taken out of [executing]. *)
Example second_task_waits :
  runWithConcurrency [tt; tt] 1 [Resume; Resume] = None /\
  runWithConcurrency [tt; tt] 1 [Resume; RaceWon 0] = None /\
  runWithConcurrency [tt; tt] 1 [Resume; Settle 0 Fulfilled; RaceWon 0] = None /\
  phase <$> runWithConcurrency [tt; tt] 1
              [Resume; Settle 0 Fulfilled; Cleanup 0; RaceWon 0; Resume]
    = Some (AwaitingNext [1%nat]).
Proof. repeat split; reflexivity. Qed.

End RunnerProofs.

(* ===================================================================== *)
(** ** Properties of the planner, the tasks and the gate *)
(* ===================================================================== *)

Module OrchestratorProofs.
Import ConfigSync Orchestrator.


Section PlannerProofs.

Context {Provider : Type}.
Variable init : Provider -> value -> value -> option value.
Variable pipeline : value -> list value -> value -> string -> Settlement.
Variable providerMap : gmap string Provider.

(** The planner in the words of the specification (section 4.3): keep the
    jobs that are enabled and have a non-empty binding list; for each of
    them and each of its bindings, in order, look the binding's provider
    identifier up in the registry; a binding that resolves yields a task,
    one that does not yields a warning and is skipped. *)
Definition TaskPlanner_bindingTask (j : string * JobRow) (p : value)
  : option (Task Provider) :=
  match providerMap_get providerMap (prop p "id") with
  | Some m => Some (Build_Task m p j)
  | None => None
  end.

Definition TaskPlanner_bindingWarning (j : string * JobRow) (p : value)
  : option Event :=
  match providerMap_get providerMap (prop p "id") with
  | Some _ => None
  | None => Some (Warn (prop p "id") (fst j))
  end.

Definition TaskPlanner_plan (jobs : list (string * JobRow)) : list (Task Provider) :=
  flat_map (fun j => omap (TaskPlanner_bindingTask j) (bindings j))
           (List.filter schedulable jobs).

Definition TaskPlanner_warnings (jobs : list (string * JobRow)) : list Event :=
  flat_map (fun j => omap (TaskPlanner_bindingWarning j) (bindings j))
           (List.filter schedulable jobs).

(** A binding is an object of the data model, not [null] or
    [undefined]. *)
Definition present (p : value) : bool :=
  match p with
  | VNull | VUndefined => false
  | _ => true
  end.

Definition bindings_present (jobs : list (string * JobRow)) : bool :=
  forallb (fun j => forallb present (bindings j)) (List.filter schedulable jobs).

Lemma get_present p k : present p = true -> get p k = Some (prop p k).
Proof. by destruct p. Qed.

Lemma planBindings_spec j provs : forall tasks log,
  forallb present provs = true ->
  planBindings providerMap j provs tasks log
  = Some (tasks ++ omap (TaskPlanner_bindingTask j) provs,
          log ++ omap (TaskPlanner_bindingWarning j) provs)%list.
Proof.
  induction provs as [|p provs IH]; intros tasks log Hp; simpl in *.
  - by rewrite !app_nil_r.
  - apply andb_true_iff in Hp as [Hp Hrest].
    rewrite (get_present _ _ Hp).
    unfold TaskPlanner_bindingTask, TaskPlanner_bindingWarning.
    destruct (providerMap_get providerMap (prop p "id")) as [m|]; simpl.
    + rewrite IH by done. by rewrite <- app_assoc.
    + rewrite IH by done. by rewrite <- app_assoc.
Qed.

Lemma planJobs_spec jobs : forall tasks log,
  forallb (fun j => forallb present (bindings j)) jobs = true ->
  planJobs providerMap jobs tasks log
  = Some (tasks ++ flat_map (fun j => omap (TaskPlanner_bindingTask j) (bindings j)) jobs,
          log ++ flat_map (fun j => omap (TaskPlanner_bindingWarning j) (bindings j)) jobs)%list.
Proof.
  induction jobs as [|j jobs IH]; intros tasks log Hp; simpl in *.
  - by rewrite !app_nil_r.
  - apply andb_true_iff in Hp as [Hp Hrest].
    rewrite planBindings_spec by done. rewrite IH by done.
    by rewrite <- !app_assoc.
Qed.

(** The loops of [execute] compute the specification's plan. *)
Lemma planTasks_spec jobs :
  bindings_present jobs = true ->
  planTasks providerMap jobs = Some (TaskPlanner_plan jobs, TaskPlanner_warnings jobs).
Proof. intros Hp. unfold planTasks. by rewrite planJobs_spec. Qed.

Lemma elem_of_plan jobs t :
  t ∈ TaskPlanner_plan jobs <->
  job t ∈ jobs /\ schedulable (job t) = true /\ prov t ∈ bindings (job t) /\
  providerMap_get providerMap (prop (prov t) "id") = Some (matchedProvider t).
Proof.
  unfold TaskPlanner_plan.
  rewrite list_elem_of_In, in_flat_map. split.
  - intros [j [Hj Ht]]. apply filter_In in Hj as [Hj Hs].
    apply list_elem_of_In, list_elem_of_omap in Ht as [p [Hp Ht]].
    unfold TaskPlanner_bindingTask in Ht.
    destruct (providerMap_get providerMap (prop p "id")) as [m|] eqn:Hm; [|done].
    injection Ht as <-. simpl. by rewrite list_elem_of_In.
  - intros (Hj & Hs & Hp & Hm). exists (job t). split.
    + apply filter_In. by rewrite <- list_elem_of_In.
    + apply list_elem_of_In, list_elem_of_omap. exists (prov t). split; [done|].
      unfold TaskPlanner_bindingTask. rewrite Hm. by destruct t.
Qed.

Lemma elem_of_warnings jobs j p :
  j ∈ jobs -> schedulable j = true -> p ∈ bindings j ->
  providerMap_get providerMap (prop p "id") = None ->
  Warn (prop p "id") (fst j) ∈ TaskPlanner_warnings jobs.
Proof.
  intros Hj Hs Hp Hm. unfold TaskPlanner_warnings.
  apply list_elem_of_In, in_flat_map. exists j. split.
  - apply filter_In. by rewrite <- list_elem_of_In.
  - apply list_elem_of_In, list_elem_of_omap. exists p. split; [done|].
    unfold TaskPlanner_bindingWarning. by rewrite Hm.
Qed.

Definition isWarning (e : Event) : bool :=
  match e with Warn _ _ => true | _ => false end.

Lemma warnings_only jobs : forallb isWarning (TaskPlanner_warnings jobs) = true.
Proof.
  apply forallb_forall. intros e He. unfold TaskPlanner_warnings in He.
  apply in_flat_map in He as [j [_ He]].
  apply list_elem_of_In, list_elem_of_omap in He as [p [_ He]].
  unfold TaskPlanner_bindingWarning in He.
  destruct (providerMap_get providerMap (prop p "id")); [done|].
  by injection He as <-.
Qed.


(** C4 as the specification states it: during planning every resolvable
    binding has the provider's initialization called, and a binding whose
    initialization throws yields no task. *)
Definition planner_initialises (jobs : list (string * JobRow)) : Prop :=
  forall tasks log j p m,
    planTasks providerMap jobs = Some (tasks, log) ->
    j ∈ jobs -> schedulable j = true -> p ∈ bindings j ->
    providerMap_get providerMap (prop p "id") = Some m ->
    CallInit p (blacklist (snd j)) (fst j) ∈ log /\
    (init m p (blacklist (snd j)) = None -> Build_Task m p j ∉ tasks).


(** C3: the gate is single-flight.  A call of [execute] from the idle state
    either ends with the flag cleared (it finished without awaiting, or
    threw), or it starts a cycle; while that cycle runs every further call
    is skipped and leaves the state as it is, and when the runner's promise
    settles, fulfilled or rejected, the flag is cleared. *)
Theorem execute_single_flight first burst runner st :
  executionInFlight st = false ->
  match execute providerMap first st with
  | (st1, Awaiting tasks log) =>
      executionInFlight st1 = true /\
      triggerAll providerMap burst st1
        = (st1, List.repeat Skipped (List.length burst)) /\
      executionInFlight (execute_resume runner st1) = false
  | (st1, Skipped) => False
  | (st1, _) => executionInFlight st1 = false
  end.
Proof.
  intros Hidle. unfold execute. rewrite Hidle.
  destruct (demoMode first); [done|].
  destruct (duringWorkingHours first) as [[|]|]; [|done|done].
  destruct (storedJobs first) as [js|]; [|done].
  destruct (planTasks providerMap js) as [[[|t tasks] log]|]; [done| |done].
  split; [done|]. split; [|done].
  induction burst as [|b burst IH]; [done|].
  simpl. rewrite IH. done.
Qed.

End PlannerProofs.

(** *** A small registry and job list *)

Inductive DemoProvider : Type := Healthy | Broken.

Definition demoInit (m : DemoProvider) (prov blacklist : value) : option value :=
  match m with
  | Healthy => Some prov
  | Broken => None
  end.

Definition demoPipeline (config : value) (adapters : list value) (providerId : value)
    (jobId : string) : Settlement := Fulfilled.

Definition demoRegistry : gmap string DemoProvider :=
  <["p1" := Healthy]> (<["bad" := Broken]> ∅).

Definition demoRow (provs : list value) (on : bool) : JobRow :=
  {| name := VStr "demo"; enabled := on; provider := VArr provs;
     notificationAdapter := []; userId := "admin";
     shareWithUsers := VArr []; blacklist := VArr [] |}.

Definition bindingOf (id : string) : value := VObj [("id", VStr id)].

Definition jobMixed : string * JobRow :=
  ("a", demoRow [bindingOf "gone"; bindingOf "p1"] true).

Definition jobDisabled : string * JobRow :=
  ("b", demoRow [bindingOf "p1"] false).

Definition jobBroken : string * JobRow :=
  ("c", demoRow [bindingOf "bad"] true).

Definition demoJobs : list (string * JobRow) := [jobMixed; jobDisabled; jobBroken].

Definition demoTrigger : Trigger :=
  {| demoMode := false; duringWorkingHours := Some true; now := 1000;
     storedJobs := Some demoJobs |}.

Definition idleGate : GateState := {| executionInFlight := false; lastRun := None |}.


(** The plan for the demo jobs: the resolvable binding of "a" and the
    binding of "c", in that order; the disabled job and the unknown provider
    leave no task. *)
Example demo_plan :
  planTasks demoRegistry demoJobs
  = Some ([Build_Task Healthy (bindingOf "p1") jobMixed;
           Build_Task Broken (bindingOf "bad") jobBroken],
          [Warn (VStr "gone") "a"]).
Proof. reflexivity. Qed.



Lemma execute_single_flight_witness :
  executionInFlight (fst (execute demoRegistry demoTrigger idleGate)) = true /\
  triggerAll demoRegistry [demoTrigger; demoTrigger]
    (fst (execute demoRegistry demoTrigger idleGate))
    = (fst (execute demoRegistry demoTrigger idleGate), [Skipped; Skipped]) /\
  executionInFlight
    (execute_resume Rejected (fst (execute demoRegistry demoTrigger idleGate))) = false.
Proof.
  apply (execute_single_flight demoRegistry demoTrigger [demoTrigger; demoTrigger]
           Rejected idleGate).
  reflexivity.
Defined.

End OrchestratorProofs.

(* ===================================================================== *)
(** ** Further properties of the reconciler *)
(* ===================================================================== *)

Module ConfigSyncExtras.
Import ConfigSync ConfigSyncProofs.

(** Induction over a value and the values nested in it. *)
Section ValueInd.

Variable P : value -> Prop.
Hypothesis Hundef : P VUndefined.
Hypothesis Hnull : P VNull.
Hypothesis Hbool : forall b, P (VBool b).
Hypothesis Hnum : forall n, P (VNum n).
Hypothesis Hstr : forall s, P (VStr s).
Hypothesis Harr : forall items, Forall P items -> P (VArr items).
Hypothesis Hobj : forall props, Forall (fun kv => P (snd kv)) props -> P (VObj props).

Fixpoint value_nested_ind (v : value) : P v :=
  match v with
  | VUndefined => Hundef
  | VNull => Hnull
  | VBool b => Hbool b
  | VNum n => Hnum n
  | VStr s => Hstr s
  | VArr items =>
      Harr items
        ((fix all (l : list value) : Forall P l :=
            match l with
            | [] => List.Forall_nil P
            | x :: l' => @List.Forall_cons _ P x l' (value_nested_ind x) (all l')
            end) items)
  | VObj props =>
      Hobj props
        ((fix all (l : list (string * value)) : Forall (fun kv => P (snd kv)) l :=
            match l with
            | [] => List.Forall_nil _
            | kv :: l' =>
                @List.Forall_cons _ (fun kv => P (snd kv)) kv l'
                  (value_nested_ind (snd kv)) (all l')
            end) props)
  end.

End ValueInd.

(** *** convertNotificationAdapter *)

Definition globalShape (a : value) : bool :=
  truthy (prop a "type") && truthy (prop a "botToken") && truthy (prop a "chatId").

Lemma convert_fixed r :
  truthy r = true -> globalShape r = false ->
  truthy (prop r "id") = true -> truthy (prop r "fields") = true ->
  convertNotificationAdapter r = r.
Proof.
  unfold globalShape, convertNotificationAdapter. by intros -> -> -> ->.
Qed.

Lemma convert_cases adapter :
  convertNotificationAdapter adapter = VNull \/
  (truthy (convertNotificationAdapter adapter) = true /\
   globalShape (convertNotificationAdapter adapter) = false /\
   truthy (prop (convertNotificationAdapter adapter) "id") = true /\
   truthy (prop (convertNotificationAdapter adapter) "fields") = true).
Proof.
  unfold convertNotificationAdapter.
  destruct (truthy adapter) eqn:Ha; simpl; [|by left].
  fold (globalShape adapter).
  destruct (globalShape adapter) eqn:Hg.
  - right. unfold globalShape in Hg.
    apply andb_true_iff in Hg as [Hg _]. apply andb_true_iff in Hg as [Ht _].
    simpl. by rewrite Ht.
  - destruct (truthy (prop adapter "id")) eqn:Hid; simpl; [|by left].
    right. destruct (truthy (prop adapter "fields")) eqn:Hf; [done|].
    destruct (truthy (prop adapter "args")) eqn:Hargs; simpl; by rewrite Hid, ?Hargs.
Qed.

(** Converting an adapter twice is converting it once: the canonical shape
    is a fixed point, and so is [null]. *)
Theorem convertNotificationAdapter_idempotent adapter :
  convertNotificationAdapter (convertNotificationAdapter adapter)
  = convertNotificationAdapter adapter.
Proof.
  destruct (convert_cases adapter) as [->|(H1 & H2 & H3 & H4)]; [done|].
  by apply convert_fixed.
Qed.

(** What [filter(Boolean)] keeps of the converted adapters is canonical: an
    object with a truthy [id] and a truthy [fields]. *)
Definition canonical (a : value) : bool :=
  truthy (prop a "id") && truthy (prop a "fields").

Lemma convert_null_or_canonical adapter :
  convertNotificationAdapter adapter = VNull \/
  canonical (convertNotificationAdapter adapter) = true.
Proof.
  destruct (convert_cases adapter) as [?|(_ & _ & H3 & H4)]; [by left|].
  right. unfold canonical. by rewrite H3, H4.
Qed.

Lemma convertAll_canonical_aux items :
  Forall (fun a => canonical a = true) (convertAll items).
Proof.
  apply Forall_forall. intros a Ha. unfold convertAll in Ha.
  apply list_elem_of_In, filter_In in Ha as [Hin Ht].
  apply in_map_iff in Hin as [x [<- _]].
  destruct (convert_null_or_canonical x) as [Hn|Hc]; [|done].
  by rewrite Hn in Ht.
Qed.

(** Whatever list of adapters a job or the file gives, every adapter that
    survives [map(convertNotificationAdapter).filter(Boolean)] is canonical:
    it has a truthy [id] and a truthy [fields]. *)
Theorem convertAll_canonical items :
  Forall (fun a => canonical a = true) (convertAll items).
Proof. apply convertAll_canonical_aux. Qed.

(** *** replaceEnvPlaceholdersSimple *)

(** A value with the text of its strings erased: what is left is the
    nesting, the property names in order, the array lengths, and every
    number, boolean and [null]. *)
Fixpoint shape (v : value) : value :=
  match v with
  | VStr _ => VStr EmptyString
  | VArr items => VArr (List.map shape items)
  | VObj props => VObj (List.map (fun kv => (fst kv, shape (snd kv))) props)
  | _ => v
  end.

Section Traversal.

Variable env : Env.

(** Both entry points of the traversal, the function itself and the loop
    body, satisfy [Q] on every value once [Q] holds for the rewriting of
    each single string and is kept by rebuilding arrays and objects. *)
Variable Q : value -> value -> Prop.
Hypothesis Qstr : forall s, Q (VStr s) (VStr (replaceString env s)).
Hypothesis Qrefl : forall v, Q v v.
Hypothesis Qarr : forall (f : value -> value) items,
  Forall (fun x => Q x (f x)) items -> Q (VArr items) (VArr (List.map f items)).
Hypothesis Qobj : forall (f : value -> value) props,
  Forall (fun kv => Q (snd kv) (f (snd kv))) props ->
  Q (VObj props) (VObj (List.map (fun kv => (fst kv, f (snd kv))) props)).

Lemma traversal_both v :
  Q v (replaceEnvPlaceholdersSimple env v) /\
  Q v (replaceProperty env (replaceEnvPlaceholdersSimple env) v).
Proof.
  induction v as [| | b | n | s | items IH | props IH] using value_nested_ind;
    simpl; try (split; apply Qrefl).
  - split; [apply Qrefl | apply Qstr].
  - split.
    + apply Qarr. eapply Forall_impl; [exact IH|]. by intros x [_ H].
    + apply (Qarr (fun item => match item with
                               | VObj _ | VArr _ => replaceEnvPlaceholdersSimple env item
                               | _ => item
                               end)).
      eapply Forall_impl; [exact IH|]. intros x [H _].
      destruct x; try apply Qrefl; exact H.
  - assert (H : Q (VObj props)
                  (VObj (List.map (fun kv => (fst kv,
                           replaceProperty env (replaceEnvPlaceholdersSimple env) (snd kv)))
                           props))).
    { apply (Qobj (replaceProperty env (replaceEnvPlaceholdersSimple env))).
      eapply Forall_impl; [exact IH|]. by intros kv [_ H]. }
    split; exact H.
Qed.

End Traversal.

(** The traversal rewrites the text of strings and nothing else: no
    property is added, dropped, renamed or reordered, no array changes its
    length, and numbers, booleans and [null] stay as they are. *)
Theorem replaceEnvPlaceholdersSimple_keeps_shape env obj :
  shape (replaceEnvPlaceholdersSimple env obj) = shape obj.
Proof.
  symmetry.
  apply (traversal_both env (fun v w => shape v = shape w)); try done.
  - intros f items H. simpl. rewrite List.map_map. f_equal.
    by apply List.map_ext_Forall.
  - intros f props H. simpl. rewrite List.map_map. f_equal. simpl.
    apply List.map_ext_Forall. eapply Forall_impl; [exact H|].
    intros kv Hkv. simpl in *. by rewrite Hkv.
Qed.

(** With neither BOT_TOKEN nor RAW_FEED_CHANNEL_ID set (or set to the empty
    string) the configuration is left exactly as it was read, placeholders
    included. *)
Theorem replaceEnvPlaceholdersSimple_without_env env obj :
  env_set (BOT_TOKEN env) = None ->
  env_set (RAW_FEED_CHANNEL_ID env) = None ->
  replaceEnvPlaceholdersSimple env obj = obj.
Proof.
  intros Hb Hr. symmetry.
  apply (traversal_both env (fun v w => v = w)); try done.
  - intros s. unfold replaceString. by rewrite Hb, Hr.
  - intros f items H. f_equal. rewrite <- (List.map_id items) at 1.
    by apply List.map_ext_Forall.
  - intros f props H. f_equal. rewrite <- (List.map_id props) at 1.
    apply List.map_ext_Forall. eapply Forall_impl; [exact H|].
    intros [k x] Hkv. simpl in *. by rewrite <- Hkv.
Qed.

Lemma replaceEnvPlaceholdersSimple_without_env_witness :
  replaceEnvPlaceholdersSimple {| BOT_TOKEN := Some EmptyString;
                                  RAW_FEED_CHANNEL_ID := None |} sourceWithSecrets
  = sourceWithSecrets.
Proof.
  apply replaceEnvPlaceholdersSimple_without_env; reflexivity.
Defined.

(** *** syncJobToDatabase *)

Lemma jobNotificationAdapters_canonical jobConfig currentConfig l :
  jobNotificationAdapters jobConfig currentConfig = Some l ->
  Forall (fun a => canonical a = true) l.
Proof.
  unfold jobNotificationAdapters.
  set (own := match prop jobConfig "notificationAdapter" with
              | VArr items => convertAll items
              | _ => []
              end).
  assert (Hown : Forall (fun a => canonical a = true) own).
  { subst own. destruct (prop jobConfig "notificationAdapter");
      try apply List.Forall_nil. apply convertAll_canonical_aux. }
  destruct (_ && _ && _).
  - destruct (prop currentConfig "adapters"); try discriminate.
    intros [= <-]. apply Forall_app. split; [done | apply convertAll_canonical_aux].
  - by intros [= <-].
Qed.



(** *** syncConfigJobsToDatabase *)



(** A job list with a [null] entry: the run fails before the first
    upsert. *)
Example sync_null_entry_aborts :
  syncConfigJobsToDatabase noEnv
    (Some (VObj [("adapters", VArr [telegramGlobal]);
                 ("jobs", VArr [VObj [("id", VStr "a")]; VNull])])) 1 emptyState
  = ({| syncInProgress := false; lastSyncTime := None;
        users := {[CONFIG_SYNC_USER_ID]} ∪ ∅; jobs := ∅ |}, Failed).
Proof. reflexivity. Qed.

Lemma jobIds_length items : forall ids,
  jobIds items = Some ids -> List.length ids = List.length items.
Proof.
  induction items as [|x items IH]; intros ids Hids; simpl in *.
  - by injection Hids as <-.
  - destruct (get x "id"); [|discriminate].
    destruct (jobIds items) as [ids'|]; [|discriminate].
    injection Hids as <-. simpl. f_equal. by apply IH.
Qed.

Lemma syncEach_counts currentConfig items : forall ids db s k db' s' k',
  jobIds items = Some ids ->
  syncEach items currentConfig db s k = inl (db', s', k') ->
  (s' + k' = s + k + List.length items)%nat.
Proof.
  induction items as [|jc items IH]; intros ids db s k db' s' k' Hids Hrun;
    simpl in *.
  - injection Hrun as <- <- <-. lia.
  - destruct (get jc "id") as [id|] eqn:Hid; [|discriminate].
    destruct (jobIds items) as [ids'|] eqn:Hids'; [|discriminate].
    rewrite (syncJobToDatabase_write _ _ _ _ Hid) in Hrun.
    destruct (writeOf currentConfig jc) as [[k0 r0]|];
      apply (IH ids') in Hrun; try done; lia.
Qed.

(** The counts a completed run logs add up: every entry of the job list is
    counted once, as synced or as skipped, and the removals are the owned
    jobs of the store the run started from whose identifier the list does
    not declare. *)
Theorem sync_counts env file now st a b c :
  snd (syncConfigJobsToDatabase env file now st) = Completed a b c ->
  (a + b = List.length (declaredIds env file))%nat /\
  c = List.length (jobsToRemove (existingJobsOf (jobs st)) (declaredIds env file)).
Proof.
  destruct (sync_unfold env file now st) as (_ & -> & _).
  destruct (syncInProgress st); [discriminate|].
  destruct file as [parsed|]; [|discriminate].
  set (cc := replaceEnvPlaceholdersSimple env parsed).
  unfold reconcile, declaredIds. fold cc.
  destruct (configJobsOf cc) as [configJobs|]; [|discriminate].
  destruct (length_of configJobs) as [| |b0|n|s0|l0|p0]; try destruct n;
    try discriminate;
    (destruct configJobs as [| | | | |items|]; try discriminate;
     destruct (jobIds items) as [ids|] eqn:Hids; try discriminate;
     destruct (syncEach items cc (jobs st) 0 0) as [[[db' s'] k']|] eqn:Hrun;
       try discriminate;
     intros [= <- <- <-]; simpl;
     pose proof (syncEach_counts _ _ _ _ _ _ _ _ _ Hids Hrun);
     rewrite (jobIds_length _ _ Hids); split; [lia | done]).
Qed.

Definition rowStale : JobRow :=
  {| name := VStr "old"; enabled := true; provider := VArr [];
     notificationAdapter := [telegramCanonical];
     userId := CONFIG_SYNC_USER_ID;
     shareWithUsers := VArr []; blacklist := VArr [] |}.

(** A store with a job the file no longer declares and a job of another
    owner. *)
Definition stateWithStale : SyncState :=
  {| syncInProgress := false; lastSyncTime := None; users := ∅;
     jobs := <["old" := rowStale]> {[ "ui" := rowUi ]} |}.

Lemma sync_counts_witness :
  (1 + 0 = List.length (declaredIds noEnv (Some sourceWithA)))%nat /\
  1%nat = List.length (jobsToRemove (existingJobsOf (jobs stateWithStale))
                         (declaredIds noEnv (Some sourceWithA))).
Proof.
  apply (sync_counts noEnv (Some sourceWithA) 7 stateWithStale 1 0 1).
  reflexivity.
Defined.

(** A run writes only rows of the synthetic owner: whatever is in the store
    afterwards was there before, unchanged, or is owned by
    [config_sync]. *)
Theorem sync_writes_are_owned env file now st k r :
  jobs (fst (syncConfigJobsToDatabase env file now st)) !! k = Some r ->
  jobs st !! k = Some r \/ userId r = CONFIG_SYNC_USER_ID.
Proof.
  destruct (sync_unfold env file now st) as (-> & _ & _).
  destruct (syncInProgress st); [by left|].
  destruct file as [parsed|]; [|by left].
  destruct (reconcile_cases (replaceEnvPlaceholdersSimple env parsed))
    as [(items & ids & Hc & Hne & Hids & Hrun) | Hstop].
  2:{ destruct (Hstop (jobs st)) as [o [-> _]]. by left. }
  destruct (Hrun (jobs st)) as [a [b ->]]. cbn [fst].
  rewrite lookup_removeAll. case_decide; [discriminate|].
  set (ws := writes (replaceEnvPlaceholdersSimple env parsed) items).
  destruct (decide (k ∈ ws.*1)) as [Hin|Hnin].
  - destruct (applyWrites_in ws (jobs st) k Hin) as [r' [Hr' Hall]].
    rewrite Hall. intros [= <-]. right.
    by destruct (writes_has _ _ _ _ _ Hids Hr').
  - rewrite applyWrites_notin by done. by left.
Qed.

Lemma sync_writes_are_owned_witness :
  jobs stateWithStale !! "a" = Some rowA \/ userId rowA = CONFIG_SYNC_USER_ID.
Proof.
  apply (sync_writes_are_owned noEnv (Some sourceWithA) 7 stateWithStale "a" rowA).
  reflexivity.
Defined.

(** When the run completes, a job of the synthetic owner that the file no
    longer declares is gone from the store. *)
Theorem sync_completed_removes_stale env file now st a b c k r :
  snd (syncConfigJobsToDatabase env file now st) = Completed a b c ->
  jobs st !! k = Some r ->
  userId r = CONFIG_SYNC_USER_ID ->
  has (declaredIds env file) k = false ->
  jobs (fst (syncConfigJobsToDatabase env file now st)) !! k = None.
Proof.
  destruct (sync_unfold env file now st) as (-> & -> & _).
  destruct (syncInProgress st); [discriminate|].
  destruct file as [parsed|]; [|discriminate].
  destruct (reconcile_cases (replaceEnvPlaceholdersSimple env parsed))
    as [(items & ids & Hc & Hne & Hids & Hrun) | Hstop].
  2:{ destruct (Hstop (jobs st)) as [o [-> Ho]]. simpl. intros ->.
      by destruct (Ho a b c). }
  rewrite (declaredIds_completed _ _ _ _ Hc Hids).
  destruct (Hrun (jobs st)) as [a' [b' ->]]. cbn [fst snd].
  intros _ Hk Hu Hh. rewrite lookup_removeAll.
  rewrite decide_True; [done|]. apply elem_of_toRemove_keys. eauto.
Qed.

Lemma sync_completed_removes_stale_witness :
  jobs (fst (syncConfigJobsToDatabase noEnv (Some sourceWithA) 7 stateWithStale))
    !! "old" = None.
Proof.
  apply (sync_completed_removes_stale noEnv (Some sourceWithA) 7 stateWithStale
           1 0 1 "old" rowStale); reflexivity.
Defined.

Lemma applyWrites_last ws1 ws2 k r (db : gmap string JobRow) :
  k ∉ ws2.*1 -> applyWrites (ws1 ++ (k, r) :: ws2) db !! k = Some r.
Proof.
  intros Hk. unfold applyWrites. rewrite fold_left_app. simpl.
  fold (applyWrites ws2 (<[k := r]> (fold_left (fun d kr => <[kr.1 := kr.2]> d) ws1 db))).
  rewrite applyWrites_notin by done. apply lookup_insert_eq.
Qed.

Lemma stores_declared_job env parsed now st pre jobConfig post ids k a l :
  syncInProgress st = false ->
  configJobsOf (replaceEnvPlaceholdersSimple env parsed)
    = Some (VArr (pre ++ jobConfig :: post)) ->
  jobIds (pre ++ jobConfig :: post) = Some ids ->
  prop jobConfig "id" = VStr k ->
  k <> EmptyString ->
  jobNotificationAdapters jobConfig (replaceEnvPlaceholdersSimple env parsed)
    = Some (a :: l) ->
  Forall (fun j => prop j "id" <> VStr k) post ->
  jobs (fst (syncConfigJobsToDatabase env (Some parsed) now st)) !! k
  = Some (row (jobDataOf jobConfig (a :: l))).
Proof.
  intros Hidle Hc Hids Hk Hne Hn Hpost.
  destruct (sync_unfold env (Some parsed) now st) as (-> & _ & _).
  rewrite Hidle.
  set (cc := replaceEnvPlaceholdersSimple env parsed) in *.
  destruct (reconcile_cases cc)
    as [(items & ids' & Hc' & _ & Hids' & Hrun) | Hstop].
  2:{ exfalso. destruct (Hstop (jobs st)) as [o [Hr Ho]].
      unfold reconcile in Hr. rewrite Hc in Hr.
      assert (Hlen : exists m, length_of (VArr (pre ++ jobConfig :: post))
                               = VNum (Z.pos m)).
      { simpl. rewrite length_app. simpl.
        exists (Pos.of_succ_nat (List.length pre + List.length post)).
        f_equal. lia. }
      destruct Hlen as [m Hlen]. rewrite Hlen, Hids in Hr.
      destruct (syncEach_writes cc _ ids (jobs st) 0%nat 0%nat Hids)
        as [s' [k' Heq]].
      rewrite Heq in Hr. injection Hr as _ <-. by eapply Ho. }
  rewrite Hc in Hc'. injection Hc' as <-. rewrite Hids in Hids'.
  injection Hids' as <-.
  destruct (Hrun (jobs st)) as [a' [b' ->]]. cbn [fst].
  assert (Hw : writeOf cc jobConfig = Some (k, row (jobDataOf jobConfig (a :: l)))).
  { unfold writeOf. rewrite Hk, Hn. simpl.
    destruct (String.eqb_spec k EmptyString); [done | reflexivity]. }
  assert (Hnot : k ∉ (writes cc post).*1).
  { intros [[k0 r0] [Hk0 Hin]]%list_elem_of_fmap. simpl in Hk0. subst k0.
    unfold writes in Hin. apply list_elem_of_omap in Hin as [j [Hj Hwj]].
    apply writeOf_Some in Hwj as [Hjk _].
    rewrite Forall_forall in Hpost. by apply (Hpost j). }
  rewrite lookup_removeAll. rewrite decide_False.
  - unfold writes. rewrite omap_app. simpl. rewrite Hw.
    by apply applyWrites_last.
  - intros (r' & _ & _ & Hh)%elem_of_toRemove_keys.
    assert (Hin : (k, row (jobDataOf jobConfig (a :: l)))
                  ∈ writes cc (pre ++ jobConfig :: post)).
    { unfold writes. rewrite omap_app. simpl. rewrite Hw.
      apply elem_of_app. right. apply elem_of_cons. by left. }
    destruct (writes_has _ _ _ _ _ Hids Hin) as [Hh' _]. congruence.
Qed.



End ConfigSyncExtras.

(* ===================================================================== *)
(** ** Properties of the file watcher *)
(* ===================================================================== *)

Module WatcherProofs.
Import ConfigSync Watcher.

Local Open Scope list_scope.

(** What holds of the debounce after every run of events. *)
Record WInv (d : Debounce) : Prop := {
  winv_changes : forall c, c ∈ changes d -> c <= clock d;
  winv_syncs : forall s, s ∈ syncs d -> s <= clock d;
  winv_due : forall id due c,
      (id, due) ∈ armed d -> c ∈ changes d -> c + DEBOUNCE_MS <= due;
  winv_quiet : forall s c,
      s ∈ syncs d -> c ∈ changes d -> c < s -> c + DEBOUNCE_MS <= s;
  winv_one : armed d = [] \/
             exists id due, armed d = [(id, due)] /\ debounceTimer d = Some id;
  winv_count :
      (List.length (syncs d) + List.length (armed d) <= List.length (changes d))%nat
}.

Lemma fresh_winv t0 : WInv (freshDebounce t0).
Proof.
  split; simpl; try (intros; exfalso; eapply not_elem_of_nil; eassumption).
  - by left.
  - lia.
Qed.

Lemma cleared_is_empty d :
  WInv d ->
  match debounceTimer d with
  | Some id => clearTimeout id (armed d)
  | None => armed d
  end = [].
Proof.
  intros Hinv. destruct (winv_one _ Hinv) as [He|(id & due & He & Hd)].
  - rewrite He. by destruct (debounceTimer d).
  - rewrite He, Hd. unfold clearTimeout. simpl. by rewrite Nat.eqb_refl.
Qed.

Lemma dueOf_armed d id due :
  WInv d -> dueOf id (armed d) = Some due ->
  armed d = [(id, due)] /\ clearTimeout id (armed d) = [].
Proof.
  intros Hinv Hdue. destruct (winv_one _ Hinv) as [He|(id' & due' & He & Hd)].
  - by rewrite He in Hdue.
  - rewrite He in *. unfold dueOf, clearTimeout in *. simpl in *.
    destruct (Nat.eqb_spec id' id) as [->|Hne]; [|done].
    simpl in Hdue. by injection Hdue as ->.
Qed.

Lemma onFsEvent_armed t fn d :
  WInv d -> truthy fn = true ->
  armed (onFsEvent t "change" fn d) = [(nextTimer d, t + DEBOUNCE_MS)] /\
  debounceTimer (onFsEvent t "change" fn d) = Some (nextTimer d) /\
  changes (onFsEvent t "change" fn d) = t :: changes d /\
  syncs (onFsEvent t "change" fn d) = syncs d /\
  clock (onFsEvent t "change" fn d) = t.
Proof.
  intros Hinv Hfn. unfold onFsEvent. simpl. rewrite Hfn. simpl.
  by rewrite (cleared_is_empty _ Hinv).
Qed.

Lemma watchStep_winv ev d d' :
  WInv d -> watchStep ev d = Some d' -> WInv d'.
Proof.
  intros Hinv Hstep. destruct ev as [t ty fn|t id]; simpl in Hstep.
  - destruct (Z.leb_spec (clock d) t) as [Hle|]; [|discriminate].
    injection Hstep as <-. unfold onFsEvent.
    destruct (String.eqb ty "change" && truthy fn) eqn:Hacc.
    + rewrite (cleared_is_empty _ Hinv). split; simpl.
      * intros c [->|Hc]%elem_of_cons; [lia|].
        pose proof (winv_changes _ Hinv c Hc). lia.
      * intros s Hs. pose proof (winv_syncs _ Hinv s Hs). lia.
      * intros id due c [= -> ->]%list_elem_of_singleton [->|Hc]%elem_of_cons;
          [lia|]. pose proof (winv_changes _ Hinv c Hc). lia.
      * intros s c Hs [->|Hc]%elem_of_cons Hlt.
        -- pose proof (winv_syncs _ Hinv s Hs). lia.
        -- by apply (winv_quiet _ Hinv).
      * right. eauto.
      * pose proof (winv_count _ Hinv). lia.
    + split; simpl.
      * intros c Hc. pose proof (winv_changes _ Hinv c Hc). lia.
      * intros s Hs. pose proof (winv_syncs _ Hinv s Hs). lia.
      * apply (winv_due _ Hinv).
      * apply (winv_quiet _ Hinv).
      * apply (winv_one _ Hinv).
      * apply (winv_count _ Hinv).
  - destruct (dueOf id (armed d)) as [due|] eqn:Hdue; [|discriminate].
    destruct (Z.leb_spec (clock d) t) as [Hle|]; [|discriminate].
    destruct (Z.leb_spec due t) as [Hle'|]; [|discriminate].
    injection Hstep as <-.
    destruct (dueOf_armed _ _ _ Hinv Hdue) as [Ha Hc].
    unfold onTimeout. rewrite Hc. split; simpl.
    + intros c Hin. pose proof (winv_changes _ Hinv c Hin). lia.
    + intros s [->|Hs]%elem_of_cons; [lia|].
      pose proof (winv_syncs _ Hinv s Hs). lia.
    + intros ? ? ? Hin. by apply elem_of_nil in Hin.
    + intros s c [->|Hs]%elem_of_cons Hin Hlt.
      * assert (Hd : (id, due) ∈ armed d) by (rewrite Ha; by apply list_elem_of_singleton).
        pose proof (winv_due _ Hinv id due c Hd Hin). lia.
      * by apply (winv_quiet _ Hinv).
    + by left.
    + pose proof (winv_count _ Hinv) as Hn. rewrite Ha in Hn. simpl in Hn. lia.
Qed.

Lemma watchRun_winv evs : forall d d',
  WInv d -> watchRun evs d = Some d' -> WInv d'.
Proof.
  induction evs as [|ev evs IH]; intros d d' Hinv Hrun; simpl in Hrun.
  - by injection Hrun as <-.
  - destruct (watchStep ev d) as [d1|] eqn:Hstep; [|discriminate].
    eapply IH; [|done]. by eapply watchStep_winv.
Qed.

(** The quiet period.  Whatever events the watcher of a freshly started
    closure sees, a sync is never started less than 2000 ms after a change
    event that came before it. *)
Theorem debounce_quiet_period t0 evs d s c :
  watchRun evs (freshDebounce t0) = Some d ->
  s ∈ syncs d -> c ∈ changes d -> c < s ->
  c + 2000 <= s.
Proof.
  intros Hrun Hs Hc Hlt.
  pose proof (watchRun_winv _ _ _ (fresh_winv t0) Hrun) as Hinv.
  by apply (winv_quiet _ Hinv).
Qed.

(** Three change events 200 ms apart, then the timer of the last one. *)
Definition burstOfThree : list WatchEvent :=
  [FsEvent 0 "change" (VStr "config.json");
   FsEvent 200 "change" (VStr "config.json");
   FsEvent 400 "change" (VStr "config.json");
   TimerFires 2400 2].

Definition afterBurst : Debounce :=
  {| debounceTimer := Some 2%nat; armed := []; nextTimer := 3; clock := 2400;
     changes := [400; 200; 0]; syncs := [2400] |}.

Lemma debounce_quiet_period_witness : 400 + 2000 <= 2400.
Proof.
  apply (debounce_quiet_period 0 burstOfThree afterBurst 2400 400).
  - reflexivity.
  - constructor.
  - constructor.
  - lia.
Defined.

(** A burst collapses into one sync.  However many change events came
    before, after one more change event at time [t] exactly one timer is
    armed, due at [t + 2000]; when it fires, one sync is started, no timer
    is left, and no timer can fire until the file changes again.  Over a
    whole run there are never more syncs than change events. *)
Theorem debounce_collapses_bursts t0 evs d t filename t' :
  watchRun evs (freshDebounce t0) = Some d ->
  clock d <= t -> truthy filename = true -> t + 2000 <= t' ->
  (List.length (armed d) <= 1)%nat /\
  (List.length (syncs d) + List.length (armed d) <= List.length (changes d))%nat /\
  exists id d',
    armed (onFsEvent t "change" filename d) = [(id, t + 2000)] /\
    watchRun [FsEvent t "change" filename; TimerFires t' id] d = Some d' /\
    syncs d' = t' :: syncs d /\
    armed d' = [] /\
    forall t'' id', watchStep (TimerFires t'' id') d' = None.
Proof.
  intros Hrun Hclock Hfn Hdue.
  pose proof (watchRun_winv _ _ _ (fresh_winv t0) Hrun) as Hinv.
  split; [|split].
  - destruct (winv_one _ Hinv) as [->|(id & due & -> & _)]; simpl; lia.
  - apply (winv_count _ Hinv).
  - destruct (onFsEvent_armed t filename d Hinv Hfn) as (Ha & Hd & Hc & Hs & Hk).
    exists (nextTimer d), (onTimeout t' (nextTimer d) (onFsEvent t "change" filename d)).
    split; [exact Ha|]. split.
    + simpl. destruct (Z.leb_spec (clock d) t); [|lia].
      rewrite Ha, Hk. unfold dueOf. simpl. rewrite Nat.eqb_refl. simpl.
      destruct (Z.leb_spec t t'); [|unfold DEBOUNCE_MS in *; lia].
      destruct (Z.leb_spec (t + DEBOUNCE_MS) t'); [|unfold DEBOUNCE_MS in *; lia].
      reflexivity.
    + unfold onTimeout. simpl. rewrite Hs, Ha. unfold clearTimeout. simpl.
      rewrite Nat.eqb_refl. simpl. done.
Qed.

Lemma debounce_collapses_bursts_witness :
  (List.length (armed afterBurst) <= 1)%nat /\
  (List.length (syncs afterBurst) + List.length (armed afterBurst)
   <= List.length (changes afterBurst))%nat /\
  exists id d',
    armed (onFsEvent 5000 "change" (VStr "config.json") afterBurst)
      = [(id, 5000 + 2000)] /\
    watchRun [FsEvent 5000 "change" (VStr "config.json"); TimerFires 7000 id]
      afterBurst = Some d' /\
    syncs d' = 7000 :: syncs afterBurst /\
    armed d' = [] /\
    forall t'' id', watchStep (TimerFires t'' id') d' = None.
Proof.
  apply (debounce_collapses_bursts 0 burstOfThree afterBurst 5000
           (VStr "config.json") 7000).
  - reflexivity.
  - simpl. lia.
  - reflexivity.
  - lia.
Defined.

(** Events that are no change of the file (another event type, or no file
    name) neither start nor restart the timer. *)
Example rename_does_not_arm :
  watchRun [FsEvent 0 "rename" (VStr "config.json"); FsEvent 1 "change" VNull]
    (freshDebounce 0)
  = Some {| debounceTimer := None; armed := []; nextTimer := 0; clock := 1;
            changes := []; syncs := [] |}.
Proof. reflexivity. Qed.

(** *** Starting and stopping *)

Definition lifecycleRun (ops : list LifecycleOp) (w : Lifecycle) : Lifecycle :=
  fold_left (fun w op => lifecycleStep op w) ops w.

Definition LInv (w : Lifecycle) : Prop :=
  openWatchers w = match fileWatcher w with Some h => [h] | None => [] end.

Lemma lifecycleStep_inv op w : LInv w -> LInv (lifecycleStep op w).
Proof.
  unfold LInv. intros Hinv. destruct op as [e k|]; simpl.
  - unfold startConfigFileWatcher.
    destruct (fileWatcher w) eqn:Hf; [by rewrite Hf|].
    destruct e; simpl; [|by rewrite Hf].
    destruct k; simpl; [by rewrite Hinv | by rewrite Hf].
  - unfold stopConfigFileWatcher.
    destruct (fileWatcher w) eqn:Hf; [|by rewrite Hf].
    simpl. rewrite Hinv. simpl. by rewrite Nat.eqb_refl.
Qed.

Lemma lifecycleRun_inv ops : forall w, LInv w -> LInv (lifecycleRun ops w).
Proof.
  induction ops as [|op ops IH]; intros w Hinv; [done|].
  apply IH. by apply lifecycleStep_inv.
Qed.

(** No watcher is leaked.  After any sequence of starts and stops, failed
    or not, the watchers open in the operating system are exactly the one
    [fileWatcher] refers to, so at most one; [cleanup] closes it; and a
    start while a watcher is running opens no second one. *)
Theorem watcher_never_leaks ops fileExists watchWorks :
  openWatchers (lifecycleRun ops noWatcher)
    = match fileWatcher (lifecycleRun ops noWatcher) with
      | Some h => [h]
      | None => []
      end /\
  openWatchers (cleanup (lifecycleRun ops noWatcher)) = [] /\
  fileWatcher (cleanup (lifecycleRun ops noWatcher)) = None /\
  startConfigFileWatcher fileExists watchWorks
    (startConfigFileWatcher true true (lifecycleRun ops noWatcher))
  = startConfigFileWatcher true true (lifecycleRun ops noWatcher).
Proof.
  pose proof (lifecycleRun_inv ops noWatcher eq_refl) as Hinv.
  set (w := lifecycleRun ops noWatcher) in *.
  split; [exact Hinv|].
  pose proof (lifecycleStep_inv Stop w Hinv) as Hstop. unfold LInv in Hstop.
  simpl in Hstop. unfold cleanup.
  assert (Hnone : fileWatcher (stopConfigFileWatcher w) = None).
  { unfold stopConfigFileWatcher. by destruct (fileWatcher w) eqn:Hf. }
  split; [by rewrite Hstop, Hnone|]. split; [exact Hnone|].
  assert (Hsome : exists h,
             fileWatcher (startConfigFileWatcher true true w) = Some h).
  { unfold startConfigFileWatcher.
    destruct (fileWatcher w) eqn:Hf; simpl; [rewrite Hf|]; eauto. }
  destruct Hsome as [h Hh].
  unfold startConfigFileWatcher at 1. by rewrite Hh.
Qed.

End WatcherProofs.

(* ===================================================================== *)
(** ** Further properties of the bounded runner *)
(* ===================================================================== *)

Module RunnerExtras.
Import Orchestrator Orchestrator.Runner RunnerProofs.

Local Open Scope list_scope.

(** A limit below 1 counts as 1.  For every limit, zero and negative ones
    included, at every step of every interleaving at most [max(limit, 1)]
    promises are unsettled. *)
Theorem runWithConcurrency_bound_any_limit {T : Type} (tasks : list T) (limit : Z)
    (evs : list Step) (st : State) :
  runWithConcurrency tasks limit evs = Some st ->
  Z.of_nat (List.length (unsettled st)) <= Z.max limit 1.
Proof.
  intros Hrun. unfold runWithConcurrency in Hrun.
  pose proof (run_inv _ _ _ _ _ (start_inv (List.length tasks) limit) Hrun) as Hinv.
  pose proof (unsettled_le_executing _ _ _ Hinv).
  pose proof (inv_size _ _ _ Hinv) as Hsz. unfold maxParallel in Hsz.
  destruct (Z.eqb_spec limit 0); lia.
Qed.

Lemma runWithConcurrency_bound_any_limit_witness :
  Z.of_nat (List.length
              (unsettled {| cursor := 1; executing := [0%nat]; settled := [];
                            phase := AwaitingNext [0%nat] |}))
  <= Z.max (-3) 1.
Proof.
  apply (runWithConcurrency_bound_any_limit [tt; tt] (-3) [Resume]).
  reflexivity.
Defined.

Lemma run_measure n limit evs : forall st st',
  Inv n limit st -> run n limit evs st = Some st' ->
  (List.length evs + measure n st' <= measure n st)%nat.
Proof.
  induction evs as [|ev evs IH]; intros st st' Hinv Hrun; simpl in Hrun.
  - injection Hrun as <-. simpl. lia.
  - destruct (step n limit ev st) as [st1|] eqn:Hstep; [|discriminate].
    pose proof (step_measure _ _ _ _ _ Hinv Hstep).
    pose proof (IH st1 st' (step_inv _ _ _ _ _ Hinv Hstep) Hrun).
    simpl. lia.
Qed.

(** No interleaving goes on for ever: with [n] tasks, whatever the limit and
    whatever the scheduler and the tasks do, the runner and its promises
    take at most [6 n + 2] steps. *)
Theorem runWithConcurrency_terminates {T : Type} (tasks : list T) (limit : Z)
    (evs : list Step) (st : State) :
  runWithConcurrency tasks limit evs = Some st ->
  (List.length evs <= 6 * List.length tasks + 2)%nat.
Proof.
  intros Hrun. unfold runWithConcurrency in Hrun.
  pose proof (run_measure _ _ _ _ _ (start_inv (List.length tasks) limit) Hrun) as H.
  assert (Hstart : (measure (List.length tasks) (start (List.length tasks))
                    <= 6 * List.length tasks + 2)%nat).
  { unfold measure, start, unsettled. simpl.
    destruct (Nat.eqb (List.length tasks) 0); simpl; lia. }
  lia.
Qed.

Lemma runWithConcurrency_terminates_witness :
  (List.length demoSchedule <= 6 * List.length [tt; tt; tt] + 2)%nat.
Proof.
  apply (runWithConcurrency_terminates [tt; tt; tt] 2 demoSchedule demoFinal).
  reflexivity.
Defined.

Lemma run_app n limit evs1 : forall evs2 st,
  run n limit (evs1 ++ evs2) st
  = match run n limit evs1 st with
    | Some st' => run n limit evs2 st'
    | None => None
    end.
Proof.
  induction evs1 as [|ev evs1 IH]; intros evs2 st; simpl; [done|].
  destruct (step n limit ev st); [apply IH | done].
Qed.

(** The state after the runner took its first [k] tasks and nothing else
    happened. *)
Definition afterStarting (limit : Z) (k : nat) : State :=
  {| cursor := k; executing := seq 0 k; settled := [];
     phase := if Z.of_nat k >=? maxParallel limit
              then AwaitingNext (seq 0 k) else Looping |}.

Lemma start_k_tasks n limit k :
  (0 < k)%nat -> (k <= n)%nat -> Z.of_nat k <= maxParallel limit ->
  run n limit (List.repeat Resume k) (start n) = Some (afterStarting limit k).
Proof.
  induction k as [|k IH]; intros Hpos Hn Hm; [lia|].
  destruct k as [|k].
  - simpl. unfold start. destruct (Nat.eqb_spec n 0); [lia|]. simpl.
    destruct (Nat.ltb_spec 0 n); [|lia]. reflexivity.
  - replace (List.repeat Resume (S (S k))) with (List.repeat Resume (S k) ++ [Resume])
      by (rewrite <- repeat_cons; reflexivity).
    rewrite run_app, IH by lia.
    assert (Hseq : seq 0 (S k) ++ [S k] = seq 0 (S (S k)))
      by (rewrite (seq_S (S k) 0); reflexivity).
    assert (Hlen : List.length (seq 0 (S k) ++ [S k]) = S (S k))
      by (rewrite Hseq; apply length_seq).
    unfold afterStarting.
    remember (seq 0 (S k)) as l eqn:Hl.
    remember (seq 0 (S (S k))) as l' eqn:Hl'.
    simpl run. unfold step. cbn [phase].
    destruct (Z.geb_spec (Z.of_nat (S k)) (maxParallel limit)); [lia|].
    cbn [cursor executing settled].
    destruct (Nat.ltb_spec (S k) n); [|lia].
    rewrite Hlen, Hseq. reflexivity.
Qed.

(** The bound is reached: the runner does let [min(n, max(limit, 1))] tasks
    be in flight at once, so a limit above 1 is really used. *)
Theorem runWithConcurrency_bound_is_reached {T : Type} (tasks : list T) (limit : Z) :
  exists evs st,
    runWithConcurrency tasks limit evs = Some st /\
    Z.of_nat (List.length (unsettled st))
    = Z.min (Z.of_nat (List.length tasks)) (Z.max limit 1).
Proof.
  unfold runWithConcurrency.
  set (n := List.length tasks).
  assert (Hmax : maxParallel limit = Z.max limit 1).
  { unfold maxParallel. destruct (Z.eqb_spec limit 0); lia. }
  destruct (Nat.eq_dec n 0%nat) as [Hz|Hnz].
  - exists [], (start n). split; [done|].
    unfold unsettled, start. simpl. lia.
  - set (k := Z.to_nat (Z.min (Z.of_nat n) (Z.max limit 1))).
    exists (List.repeat Resume k), (afterStarting limit k). split.
    + apply start_k_tasks; subst k; lia.
    + unfold unsettled, afterStarting, isSettled. simpl.
      rewrite forallb_filter_id.
      * rewrite length_seq. subst k. lia.
      * apply forallb_forall. intros i _. reflexivity.
Qed.

End RunnerExtras.

(* ===================================================================== *)
(** ** Further properties of the orchestrator *)
(* ===================================================================== *)

Module OrchestratorExtras.
Import ConfigSync Orchestrator OrchestratorProofs.

Local Open Scope list_scope.

(** *** replaceEnvPlaceholders *)

(** Apply [f] to every string in a value, at any depth. *)
Fixpoint mapStrings (f : string -> string) (v : value) : value :=
  match v with
  | VStr s => VStr (f s)
  | VArr items => VArr (List.map (mapStrings f) items)
  | VObj props => VObj (List.map (fun kv => (fst kv, mapStrings f (snd kv))) props)
  | _ => v
  end.

Lemma replaceAtStartup_mapStrings env v :
  replaceAtStartup env (replaceEnvPlaceholders env) v
  = mapStrings (replaceStringAtStartup env) v.
Proof.
  induction v as [| | b | n | s | items IH | props IH]
    using ConfigSyncExtras.value_nested_ind; simpl; try done.
  - f_equal. by apply List.map_ext_Forall.
  - f_equal. apply List.map_ext_Forall.
    eapply Forall_impl; [exact IH|]. intros [k x] Hx. simpl in *. by rewrite Hx.
Qed.

(** The start-up variant rewrites every string of the configuration, at any
    depth and also directly inside arrays, and changes nothing else. *)
Theorem replaceEnvPlaceholders_maps_every_string env props :
  replaceEnvPlaceholders env (VObj props)
  = mapStrings (replaceStringAtStartup env) (VObj props).
Proof. apply (replaceAtStartup_mapStrings env (VObj props)). Qed.

(** *** execute *)

Section Gate.

Context {Provider : Type}.
Variable providerMap : gmap string Provider.

Lemma planBindings_Some j provs : forall tasks log tasks' log',
  planBindings providerMap j provs tasks log = Some (tasks', log') ->
  tasks' = tasks ++ omap (TaskPlanner_bindingTask providerMap j) provs.
Proof.
  induction provs as [|p provs IH]; intros tasks log tasks' log' H; simpl in *.
  - injection H as <- <-. by rewrite app_nil_r.
  - destruct (get p "id") as [id|] eqn:Hid; [|discriminate].
    pose proof (ConfigSyncProofs.get_Some_prop _ _ _ Hid) as ->.
    unfold TaskPlanner_bindingTask.
    destruct (providerMap_get providerMap (prop p "id")) as [m|].
    + apply IH in H. rewrite H. by rewrite <- app_assoc.
    + by apply IH in H.
Qed.

Lemma planJobs_Some jobs : forall tasks log tasks' log',
  planJobs providerMap jobs tasks log = Some (tasks', log') ->
  tasks' = tasks ++ flat_map (fun j => omap (TaskPlanner_bindingTask providerMap j)
                                            (bindings j)) jobs.
Proof.
  induction jobs as [|j jobs IH]; intros tasks log tasks' log' H; simpl in *.
  - injection H as <- <-. by rewrite app_nil_r.
  - destruct (planBindings providerMap j (bindings j) tasks log)
      as [[tasks1 log1]|] eqn:Hb; [|discriminate].
    apply planBindings_Some in Hb. apply IH in H. subst.
    by rewrite <- app_assoc.
Qed.

(** A cycle is started only when it may be.  If a call of [execute]
    suspends in the runner, then demo mode is off, the working-hours check
    passed, [lastRun] is the time of the call, there is at least one task,
    and every task is for a binding of a stored job that is enabled, with a
    provider found in the registry. *)
Theorem execute_starts_only_when_allowed t st st' tasks log :
  execute providerMap t st = (st', Awaiting tasks log) ->
  executionInFlight st = false /\
  demoMode t = false /\
  duringWorkingHours t = Some true /\
  lastRun st' = Some (now t) /\
  tasks <> [] /\
  exists js,
    storedJobs t = Some js /\
    Forall (fun task =>
              job task ∈ js /\ enabled (snd (job task)) = true /\
              prov task ∈ bindings (job task) /\
              providerMap_get providerMap (prop (prov task) "id")
              = Some (matchedProvider task))
           tasks.
Proof.
  unfold execute.
  destruct (executionInFlight st); [discriminate|].
  destruct (demoMode t); [discriminate|].
  destruct (duringWorkingHours t) as [[|]|]; try discriminate.
  destruct (storedJobs t) as [js|]; [|discriminate].
  destruct (planTasks providerMap js) as [[ts lg]|] eqn:Hplan; [|discriminate].
  destruct ts as [|t0 ts]; [discriminate|].
  intros [= <- <- <-]. repeat (split; [done|]).
  exists js. split; [done|].
  unfold planTasks in Hplan. apply planJobs_Some in Hplan. simpl in Hplan.
  rewrite Hplan. apply Forall_forall. intros task Htask.
  assert (Hin : task ∈ TaskPlanner_plan providerMap js) by exact Htask.
  apply elem_of_plan in Hin as (H1 & H2 & H3 & H4).
  split; [done|]. split; [|done].
  unfold schedulable in H2. by apply andb_true_iff in H2 as [H2 _].
Qed.

Lemma execute_in_flight t st :
  executionInFlight st = true -> execute providerMap t st = (st, Skipped).
Proof. intros H. unfold execute. by rewrite H. Qed.

Lemma triggerAll_in_flight ts st :
  executionInFlight st = true ->
  triggerAll providerMap ts st = (st, List.repeat Skipped (List.length ts)).
Proof.
  intros H. induction ts as [|t ts IH]; [done|].
  simpl. by rewrite (execute_in_flight _ _ H), IH.
Qed.

Definition startsCycle (r : Started Provider) : bool :=
  match r with Awaiting _ _ => true | _ => false end.

Lemma execute_flag t st :
  executionInFlight (fst (execute providerMap t st))
  = executionInFlight st || startsCycle (snd (execute providerMap t st)).
Proof.
  unfold execute. destruct (executionInFlight st) eqn:Hf; [simpl; exact Hf|].
  destruct (demoMode t); [done|].
  destruct (duringWorkingHours t) as [[|]|]; try done.
  destruct (storedJobs t) as [js|]; [|done].
  by destruct (planTasks providerMap js) as [[[|t0 ts] lg]|].
Qed.

(** However many triggers arrive before a cycle ends (timer ticks, manual
    runs, in any mix), at most one cycle is started, and none while one is
    already running. *)
Theorem triggerAll_starts_at_most_one ts st :
  (List.length (List.filter startsCycle (snd (triggerAll providerMap ts st)))
   <= if executionInFlight st then 0 else 1)%nat.
Proof.
  revert st. induction ts as [|t ts IH]; intros st.
  - simpl. destruct (executionInFlight st); lia.
  - destruct (executionInFlight st) eqn:Hf.
    + rewrite (triggerAll_in_flight _ _ Hf). simpl.
      clear. induction (List.length ts); simpl; lia.
    + simpl. pose proof (execute_flag t st) as Hflag. rewrite Hf in Hflag.
      destruct (execute providerMap t st) as [st1 r]. simpl in Hflag.
      specialize (IH st1).
      destruct (triggerAll providerMap ts st1) as [st2 rs]. simpl in *.
      rewrite Hflag in IH. destruct (startsCycle r); simpl; lia.
Qed.

End Gate.

Lemma execute_starts_only_when_allowed_witness :
  executionInFlight idleGate = false /\
  demoMode demoTrigger = false /\
  duringWorkingHours demoTrigger = Some true /\
  lastRun {| executionInFlight := true; lastRun := Some 1000 |} = Some (now demoTrigger) /\
  [Build_Task Healthy (bindingOf "p1") jobMixed;
   Build_Task Broken (bindingOf "bad") jobBroken] <> [] /\
  exists js,
    storedJobs demoTrigger = Some js /\
    Forall (fun task =>
              job task ∈ js /\ enabled (snd (job task)) = true /\
              prov task ∈ bindings (job task) /\
              providerMap_get demoRegistry (prop (prov task) "id")
              = Some (matchedProvider task))
           [Build_Task Healthy (bindingOf "p1") jobMixed;
            Build_Task Broken (bindingOf "bad") jobBroken].
Proof.
  apply (execute_starts_only_when_allowed demoRegistry demoTrigger idleGate
           {| executionInFlight := true; lastRun := Some 1000 |}
           [Build_Task Healthy (bindingOf "p1") jobMixed;
            Build_Task Broken (bindingOf "bad") jobBroken]
           [Warn (VStr "gone") "a"]).
  reflexivity.
Defined.

End OrchestratorExtras.

(* ===================================================================== *)
(** ** Properties of the external job API *)
(* ===================================================================== *)

Module ExternalApiProofs.
Import ConfigSync ExternalApi.

Local Open Scope list_scope.

Lemma assoc_assign k v props : assoc k (assign k v props) = v.
Proof.
  induction props as [|[k' x] props IH]; simpl.
  - by rewrite String.eqb_refl.
  - destruct (String.eqb k k') eqn:Hk; simpl; [by rewrite String.eqb_refl|].
    by rewrite Hk.
Qed.

Lemma jobsOf_assign l config : jobsOf (assign "jobs" (VArr l) config) = Some l.
Proof. unfold jobsOf. by rewrite assoc_assign. Qed.

Lemma strictEq_str v k : strictEq v (VStr k) = true -> v = VStr k.
Proof. destruct v; simpl; try discriminate. by intros ->%String.eqb_eq. Qed.

Lemma strictEq_truthy j id :
  truthy id = true -> strictEq (prop j "id") id = true -> truthy j = true.
Proof.
  intros Hid Heq. destruct j; simpl in *; try done; by destruct id.
Qed.

Lemma findJob_found id jobs : forall i j,
  findJob id jobs = Some (Some (i, j)) ->
  jobs !! i = Some j /\ strictEq (prop j "id") id = true.
Proof.
  induction jobs as [|x jobs IH]; intros i j H; simpl in H; [discriminate|].
  destruct (get x "id") as [jid|] eqn:Hid; [|discriminate].
  pose proof (ConfigSyncProofs.get_Some_prop _ _ _ Hid) as ->.
  destruct (strictEq (prop x "id") id) eqn:Heq.
  - by injection H as <- <-.
  - destruct (findJob id jobs) as [[[i' x']|]|]; try discriminate.
    injection H as <- <-. by apply IH.
Qed.

Lemma findJob_none id jobs :
  findJob id jobs = Some None ->
  Forall (fun x => get x "id" <> None /\ strictEq (prop x "id") id = false) jobs.
Proof.
  induction jobs as [|x jobs IH]; intros H; simpl in H; [constructor|].
  destruct (get x "id") as [jid|] eqn:Hid; [|discriminate].
  pose proof (ConfigSyncProofs.get_Some_prop _ _ _ Hid) as ->.
  destruct (strictEq (prop x "id") id) eqn:Heq; [discriminate|].
  destruct (findJob id jobs) as [[[i' x']|]|]; try discriminate.
  constructor; [by rewrite Hid | by apply IH].
Qed.

Lemma findJob_app_last id jobs x :
  findJob id jobs = Some None ->
  get x "id" <> None -> strictEq (prop x "id") id = true ->
  findJob id (jobs ++ [x]) = Some (Some (List.length jobs, x)).
Proof.
  intros Hnone Hget Heq.
  induction jobs as [|y jobs IH]; simpl in *.
  - destruct (get x "id") as [jid|] eqn:Hid; [|done].
    pose proof (ConfigSyncProofs.get_Some_prop _ _ _ Hid) as ->. by rewrite Heq.
  - destruct (get y "id") as [jid|] eqn:Hid; [|discriminate].
    destruct (strictEq jid id); [discriminate|].
    destruct (findJob id jobs) as [[[i' x']|]|]; try discriminate.
    by rewrite IH.
Qed.

Lemma removeAt_last (jobs : list value) x :
  removeAt (List.length jobs) (jobs ++ [x]) = jobs.
Proof. induction jobs as [|y jobs IH]; simpl; [done | by rewrite IH]. Qed.

(** A job is not found unless it is really there: what [find] returns is an
    object (so truthy) whenever the identifier looked for is truthy. *)
Lemma found_is_truthy id jobs i j :
  truthy id = true -> findJob id jobs = Some (Some (i, j)) -> truthy j = true.
Proof.
  intros Hid H. apply findJob_found in H as [_ Heq].
  by apply (strictEq_truthy j id).
Qed.

(** What a POST that answers 201 did. *)
Lemma post_created body now writeWorks st r st' :
  route (PostJob body) now writeWorks st = (r, st') ->
  status r = 201%nat ->
  exists config st1 jobs,
    loadConfig st = Some (config, st1) /\
    jobsOf config = Some jobs /\
    findJob (prop body "id") jobs = Some None /\
    truthy (prop body "id") = true /\
    r = {| status := 201; sentJob := Some (newJobOf body) |} /\
    st' = {| file := Holds (assign "jobs" (VArr (jobs ++ [newJobOf body])) config) now;
             configCache := Some (assign "jobs" (VArr (jobs ++ [newJobOf body])) config);
             configLastModified := Some now |}.
Proof.
  unfold route, serve, postJob_check, postJob, saveConfig.
  destruct (get body "id") as [id|] eqn:Hid; [|by intros [= <- _]].
  pose proof (ConfigSyncProofs.get_Some_prop _ _ _ Hid) as ->.
  destruct (truthy (prop body "id")) eqn:Ht; simpl; [|by intros [= <- _]].
  destruct (negb (truthy (prop body "name")) || negb (truthy (prop body "providers"))
            || negb (isArray (prop body "providers"))); [by intros [= <- _]|].
  destruct (loadConfig st) as [[config st1]|]; [|by intros [= <- _]].
  destruct (jobsOf config) as [jobs|] eqn:Hj; [|by intros [= <- _]].
  destruct (findJob (prop body "id") jobs) as [[[i j]|]|] eqn:Hf;
    [| |by intros [= <- _]].
  - rewrite (found_is_truthy _ _ _ _ Ht Hf). by intros [= <- _].
  - destruct writeWorks; [|by intros [= <- _]].
    intros [= <- <-] _. exists config, st1, jobs. done.
Qed.

Lemma load_after_save config now :
  loadConfig {| file := Holds config now; configCache := Some config;
                configLastModified := Some now |}
  = Some (config, {| file := Holds config now; configCache := Some config;
                     configLastModified := Some now |}).
Proof. unfold loadConfig. simpl. by rewrite Z.leb_refl. Qed.

Lemma newJob_found body jobs k :
  findJob (prop body "id") jobs = Some None ->
  prop body "id" = VStr k ->
  findJob (VStr k) (jobs ++ [newJobOf body])
  = Some (Some (List.length jobs, newJobOf body)).
Proof.
  intros Hnone Hk. rewrite Hk in Hnone.
  apply findJob_app_last; [done | done |].
  simpl. rewrite Hk. simpl. apply String.eqb_refl.
Qed.

(** Create, then read or delete.  After a POST that answered 201 for a job
    with a string identifier, and as long as nobody else touches the file, a
    GET of that identifier answers 200 with the job as it was created, and a
    DELETE of it answers 200 and leaves the job list exactly as it was
    before the POST. *)
Theorem post_then_get_or_delete body k now writeWorks st r st' now' :
  route (PostJob body) now writeWorks st = (r, st') ->
  status r = 201%nat ->
  prop body "id" = VStr k ->
  route (GetJob k) now' true st'
    = ({| status := 200; sentJob := Some (newJobOf body) |}, st') /\
  exists config config'' jobs,
    fst <$> loadConfig st = Some config /\
    jobsOf config = Some jobs /\
    route (DeleteJob k) now' true st'
    = ({| status := 200; sentJob := Some (newJobOf body) |},
       {| file := Holds config'' now'; configCache := Some config'';
          configLastModified := Some now' |}) /\
    jobsOf config'' = Some jobs.
Proof.
  intros Hpost H201 Hk.
  destruct (post_created _ _ _ _ _ _ Hpost H201)
    as (config & st1 & jobs & Hload & Hjobs & Hnone & Ht & -> & ->).
  pose proof (newJob_found _ _ _ Hnone Hk) as Hfound.
  split.
  - unfold route, serve, noCheck. rewrite load_after_save.
    unfold getJob. rewrite jobsOf_assign, Hfound. reflexivity.
  - exists config,
      (assign "jobs" (VArr jobs)
         (assign "jobs" (VArr (jobs ++ [newJobOf body])) config)), jobs.
    split; [by rewrite Hload|]. split; [done|]. split.
    + unfold route, serve, noCheck. rewrite load_after_save.
      unfold deleteJob. rewrite jobsOf_assign, Hfound, removeAt_last.
      reflexivity.
    + apply jobsOf_assign.
Qed.

(** A saved configuration with one job, and a request for a second one. *)
Definition apiConfig : Config :=
  [("interval", VNum 60);
   ("jobs", VArr [VObj [("id", VStr "a"); ("name", VStr "first")]])].

Definition apiState : ApiState :=
  {| file := Holds apiConfig 10; configCache := None; configLastModified := None |}.

Definition apiBody : value :=
  VObj [("id", VStr "b"); ("name", VStr "second");
        ("providers", VArr [VObj [("id", VStr "p1")]])].

Definition apiConfigAfterPost : Config :=
  [("interval", VNum 60);
   ("jobs", VArr [VObj [("id", VStr "a"); ("name", VStr "first")];
                  newJobOf apiBody])].

Definition apiStateAfterPost : ApiState :=
  {| file := Holds apiConfigAfterPost 20; configCache := Some apiConfigAfterPost;
     configLastModified := Some 20 |}.

Lemma post_then_get_or_delete_witness :
  route (GetJob "b") 30 true apiStateAfterPost
    = ({| status := 200; sentJob := Some (newJobOf apiBody) |}, apiStateAfterPost) /\
  exists config config'' jobs,
    fst <$> loadConfig apiState = Some config /\
    jobsOf config = Some jobs /\
    route (DeleteJob "b") 30 true apiStateAfterPost
    = ({| status := 200; sentJob := Some (newJobOf apiBody) |},
       {| file := Holds config'' 30; configCache := Some config'';
          configLastModified := Some 30 |}) /\
    jobsOf config'' = Some jobs.
Proof.
  apply (post_then_get_or_delete apiBody "b" 20 true apiState
           {| status := 201; sentJob := Some (newJobOf apiBody) |}
           apiStateAfterPost 30); reflexivity.
Defined.

Lemma loadConfig_hit f m lm c :
  f = Unreadable m \/ (exists c0, f = Holds c0 m) -> m <= lm ->
  loadConfig {| file := f; configCache := Some c; configLastModified := Some lm |}
  = Some (c, {| file := f; configCache := Some c; configLastModified := Some lm |}).
Proof.
  intros Hf Hle. unfold loadConfig. simpl.
  destruct Hf as [->|[c0 ->]]; destruct (Z.leb_spec m lm); (done || lia).
Qed.

Lemma loadConfig_valid st config st1 :
  loadConfig st = Some (config, st1) ->
  file st1 = file st /\ configCache st1 = Some config /\
  forall c,
    loadConfig {| file := file st1; configCache := Some c;
                  configLastModified := configLastModified st1 |}
    = Some (c, {| file := file st1; configCache := Some c;
                  configLastModified := configLastModified st1 |}).
Proof.
  intros H. unfold loadConfig in H.
  destruct (file st) as [|m|c0 m] eqn:Hf; [discriminate| |].
  - destruct (configCache st) as [cached|] eqn:Hc; [|discriminate].
    destruct (configLastModified st) as [lm|] eqn:Hl; [|discriminate].
    destruct (Z.leb_spec m lm); [|discriminate].
    injection H as <- <-. split; [done|]. split; [done|].
    intros c. rewrite Hf, Hl. apply (loadConfig_hit _ m lm); [by left | done].
  - assert (Hfresh :
      Some (c0, {| file := Holds c0 m; configCache := Some c0;
                   configLastModified := Some m |}) = Some (config, st1) ->
      file st1 = file st /\ configCache st1 = Some config /\
      forall c,
        loadConfig {| file := file st1; configCache := Some c;
                      configLastModified := configLastModified st1 |}
        = Some (c, {| file := file st1; configCache := Some c;
                      configLastModified := configLastModified st1 |})).
    { intros [= <- <-]. simpl. split; [by rewrite Hf|]. split; [done|].
      intros c. apply (loadConfig_hit _ m m); [right; eauto | lia]. }
    destruct (configCache st) as [cached|] eqn:Hc; [|rewrite <- Hf; exact (Hfresh H)].
    destruct (configLastModified st) as [lm|] eqn:Hl; [|rewrite <- Hf; exact (Hfresh H)].
    destruct (Z.leb_spec m lm); [|rewrite <- Hf; exact (Hfresh H)].
    injection H as <- <-. split; [done|]. split; [done|].
    intros c. rewrite Hf, Hl. apply (loadConfig_hit _ m lm); [right; eauto | done].
Qed.

Lemma post_check_passed body now writeWorks st r st' :
  route (PostJob body) now writeWorks st = (r, st') ->
  status r = 201%nat -> postJob_check body = Some None.
Proof.
  unfold route, serve.
  destruct (postJob_check body) as [[resp|]|] eqn:Hc; [| done |by intros [= <- _]].
  intros [= <- _] H. unfold postJob_check in Hc.
  destruct (get body "id"); [|done].
  destruct (_ || _ || _ || _); [|done]. injection Hc as <-. done.
Qed.



(** *** Identifiers stay unique *)

Definition countId (k : string) (jobs : list value) : nat :=
  List.length (List.filter (fun j => strictEq (prop j "id") (VStr k)) jobs).

Definition uniqueIds (config : Config) : Prop :=
  forall k jobs, jobsOf config = Some jobs -> (countId k jobs <= 1)%nat.

Definition stateUnique (st : ApiState) : Prop :=
  (forall c m, file st = Holds c m -> uniqueIds c) /\
  (forall c, configCache st = Some c -> uniqueIds c).

Lemma assoc_assign_ne k k' v props :
  k <> k' -> assoc k (assign k' v props) = assoc k props.
Proof.
  intros Hne. induction props as [|[k0 x] props IH]; simpl.
  - by destruct (String.eqb_spec k k').
  - destruct (String.eqb_spec k' k0) as [->|Hk0]; simpl.
    + by destruct (String.eqb_spec k k0).
    + destruct (String.eqb_spec k k0); [done | apply IH].
Qed.

Lemma setIfDefined_id key x j :
  key <> "id" -> prop (setIfDefined key x j) "id" = prop j "id".
Proof.
  intros Hne. unfold setIfDefined, setProp.
  destruct x; try done; destruct j; try done; simpl;
    by apply assoc_assign_ne.
Qed.

Lemma countId_replaceAt k x : forall jobs i j,
  jobs !! i = Some j -> prop x "id" = prop j "id" ->
  countId k (replaceAt i x jobs) = countId k jobs.
Proof.
  unfold countId. intros jobs.
  induction jobs as [|y jobs IH]; intros i j Hi Hx; [done|].
  destruct i as [|i]; simpl in *.
  - injection Hi as ->. rewrite Hx.
    by destruct (strictEq (prop j "id") (VStr k)).
  - destruct (strictEq (prop y "id") (VStr k)); simpl; by rewrite (IH i j).
Qed.

Lemma countId_removeAt k : forall jobs i,
  (countId k (removeAt i jobs) <= countId k jobs)%nat.
Proof.
  unfold countId. intros jobs.
  induction jobs as [|y jobs IH]; intros i; [by destruct i|].
  destruct i as [|i]; simpl.
  - destruct (strictEq (prop y "id") (VStr k)); simpl; lia.
  - specialize (IH i). destruct (strictEq (prop y "id") (VStr k)); simpl; lia.
Qed.

Lemma countId_none k jobs :
  findJob (VStr k) jobs = Some None -> countId k jobs = 0%nat.
Proof.
  intros H. apply findJob_none in H. unfold countId.
  induction H as [|x jobs [_ Hx] _ IH]; [done|]. simpl. by rewrite Hx.
Qed.

Lemma handler_keeps_unique (req : Request) config r config' :
  match req with
  | GetJob id => getJob id config
  | PostJob body => postJob body config
  | PatchJob id body => patchJob id body config
  | DeleteJob id => deleteJob id config
  end = Some (r, Some config') ->
  uniqueIds config -> uniqueIds config'.
Proof.
  intros H Hu k jobs'. destruct req as [id|body|id body|id].
  - unfold getJob in H. destruct (jobsOf config); [|done].
    destruct (findJob _ _) as [[[i j]|]|]; try done. by destruct (truthy j).
  - unfold postJob in H. destruct (jobsOf config) as [jobs|] eqn:Hj; [|done].
    destruct (findJob (prop body "id") jobs) as [found|] eqn:Hf; [|done].
    destruct (match found with Some (_, j) => truthy j | None => false end) eqn:Ht;
      [done|].
    injection H as _ <-. rewrite jobsOf_assign. intros [= <-].
    unfold countId. rewrite List.filter_app, length_app. simpl.
    fold (countId k jobs). specialize (Hu k jobs Hj).
    destruct (strictEq (prop body "id") (VStr k)) eqn:Heq; simpl; [|lia].
    apply strictEq_str in Heq. rewrite Heq in Hf.
    destruct found as [[i j]|].
    + apply findJob_found in Hf as [_ Hid%strictEq_str].
      destruct j; simpl in *; discriminate.
    + rewrite (countId_none _ _ Hf). lia.
  - unfold patchJob in H. destruct (jobsOf config) as [jobs|] eqn:Hj; [|done].
    destruct (findJob (VStr id) jobs) as [[[i j]|]|] eqn:Hf; try done.
    injection H as _ <-. rewrite jobsOf_assign. intros [= <-].
    apply findJob_found in Hf as [Hi _].
    rewrite (countId_replaceAt k _ jobs i j Hi); [by apply Hu|].
    by rewrite !setIfDefined_id.
  - unfold deleteJob in H. destruct (jobsOf config) as [jobs|] eqn:Hj; [|done].
    destruct (findJob (VStr id) jobs) as [[[i j]|]|] eqn:Hf; try done.
    injection H as _ <-. rewrite jobsOf_assign. intros [= <-].
    pose proof (countId_removeAt k jobs i). specialize (Hu k jobs Hj). lia.
Qed.

Lemma loadConfig_unique st config st1 :
  stateUnique st -> loadConfig st = Some (config, st1) ->
  uniqueIds config /\ stateUnique st1.
Proof.
  intros [Hfile Hcache] Hload.
  unfold loadConfig in Hload.
  destruct (file st) as [|m|c0 m] eqn:Hf; [discriminate| |].
  - destruct (configCache st) as [cached|] eqn:Hc; [|discriminate].
    destruct (configLastModified st) as [lm|]; [|discriminate].
    destruct (m <=? lm); [|discriminate]. injection Hload as <- <-.
    split; [by apply Hcache|]. split; [by rewrite Hf | by rewrite Hc].
  - assert (Hfresh : uniqueIds c0 /\
              stateUnique {| file := Holds c0 m; configCache := Some c0;
                             configLastModified := Some m |}).
    { split; [by apply (Hfile c0 m)|]. split; simpl.
      - intros c m' [= <- _]. by apply (Hfile c0 m).
      - intros c [= <-]. by apply (Hfile c0 m). }
    destruct (configCache st) as [cached|] eqn:Hc;
      [destruct (configLastModified st) as [lm|];
       [destruct (m <=? lm)|]|]; injection Hload as <- <-; try done.
    split; [by apply Hcache|]. split; [by rewrite Hf | by rewrite Hc].
Qed.

(** The API never makes an identifier ambiguous.  If no string identifier
    is carried by two jobs, neither in config.json nor in the cached
    configuration, then that is still so after any request, whether it
    succeeds, is refused, or fails in [saveConfig]. *)
Theorem route_keeps_ids_unique req now writeWorks st :
  stateUnique st -> stateUnique (snd (route req now writeWorks st)).
Proof.
  intros Hst.
  assert (Hserve : forall check,
    stateUnique (snd (serve check
      (fun config => match req with
                     | GetJob id => getJob id config
                     | PostJob body => postJob body config
                     | PatchJob id body => patchJob id body config
                     | DeleteJob id => deleteJob id config
                     end) now writeWorks st))).
  { intros check. unfold serve.
    destruct check as [[resp|]|]; [done| |done].
    destruct (loadConfig st) as [[config st1]|] eqn:Hload; [|done].
    destruct (loadConfig_unique _ _ _ Hst Hload) as [Hu Hst1].
    destruct (match req with
              | GetJob id => getJob id config
              | PostJob body => postJob body config
              | PatchJob id body => patchJob id body config
              | DeleteJob id => deleteJob id config
              end) as [[resp [config'|]]|] eqn:Hh; [|done|done].
    pose proof (handler_keeps_unique req _ _ _ Hh Hu) as Hu'.
    unfold saveConfig. destruct writeWorks; simpl.
    - split; simpl; [by intros c m [= <- _] | by intros c [= <-]].
    - split; simpl; [apply Hst1 | by intros c [= <-]]. }
  destruct req; apply Hserve.
Qed.

Lemma apiState_unique : stateUnique apiState.
Proof.
  split; simpl; [|done].
  intros c m [= <- _] k jobs [= <-]. unfold countId.
  cbn [List.filter prop assoc String.eqb Ascii.eqb strictEq].
  destruct (strictEq _ _); simpl; lia.
Defined.

Lemma route_keeps_ids_unique_witness :
  stateUnique (snd (route (PostJob apiBody) 20 true apiState)).
Proof.
  apply (route_keeps_ids_unique (PostJob apiBody) 20 true apiState).
  exact apiState_unique.
Defined.

(** *** PATCH *)

Lemma replaceAt_insert x : forall (l : list value) i, replaceAt i x l = <[i := x]> l.
Proof.
  intros l. induction l as [|y l IH]; intros i; [by destruct i|].
  destruct i; simpl; [done | by rewrite IH].
Qed.

Lemma setIfDefined_other key x j key' :
  key' <> key -> prop (setIfDefined key x j) key' = prop j key'.
Proof.
  intros Hne. unfold setIfDefined, setProp.
  destruct x; try done; destruct j; try done; simpl;
    by apply assoc_assign_ne.
Qed.

(** A PATCH that answers 200 has changed, in config.json, the [user_ids]
    and [enabled] of the first job with the identifier it was given, and
    nothing else: every other job, every other property of that job, and
    every other property of the configuration is as before. *)
Theorem patch_changes_two_fields id body now writeWorks st r st' :
  route (PatchJob id body) now writeWorks st = (r, st') ->
  status r = 200%nat ->
  exists config config' jobs i j j',
    fst <$> loadConfig st = Some config /\
    jobsOf config = Some jobs /\
    jobs !! i = Some j /\ prop j "id" = VStr id /\
    file st' = Holds config' now /\
    jobsOf config' = Some (<[i := j']> jobs) /\
    sentJob r = Some j' /\
    (forall key, key <> "user_ids" -> key <> "enabled" -> prop j' key = prop j key) /\
    (forall key, key <> "jobs" -> assoc key config' = assoc key config).
Proof.
  unfold route, serve, patchJob_check, patchJob, saveConfig.
  destruct (get body "user_ids"); [|by intros [= <- _]].
  destruct (loadConfig st) as [[config st1]|] eqn:Hload; [|by intros [= <- _]].
  destruct (jobsOf config) as [jobs|] eqn:Hj; [|by intros [= <- _]].
  destruct (findJob (VStr id) jobs) as [[[i j]|]|] eqn:Hf;
    [| by intros [= <- _] | by intros [= <- _]].
  destruct writeWorks; [|by intros [= <- _]].
  intros [= <- <-] _.
  apply findJob_found in Hf as [Hi Hid%strictEq_str].
  eexists config, _, jobs, i, j, _.
  split; [done|]. split; [done|]. split; [done|]. split; [done|].
  split; [reflexivity|]. split; [by rewrite jobsOf_assign, replaceAt_insert|].
  split; [reflexivity|]. split.
  - intros key H1 H2. by rewrite !setIfDefined_other.
  - intros key Hne. by apply assoc_assign_ne.
Qed.

Definition apiPatchBody : value := VObj [("enabled", VBool false)].

Lemma patch_changes_two_fields_witness :
  exists config config' jobs i j j',
    fst <$> loadConfig apiState = Some config /\
    jobsOf config = Some jobs /\
    jobs !! i = Some j /\ prop j "id" = VStr "a" /\
    file (snd (route (PatchJob "a" apiPatchBody) 20 true apiState))
      = Holds config' 20 /\
    jobsOf config' = Some (<[i := j']> jobs) /\
    sentJob (fst (route (PatchJob "a" apiPatchBody) 20 true apiState)) = Some j' /\
    (forall key, key <> "user_ids" -> key <> "enabled" -> prop j' key = prop j key) /\
    (forall key, key <> "jobs" -> assoc key config' = assoc key config).
Proof.
  apply (patch_changes_two_fields "a" apiPatchBody 20 true apiState
           (fst (route (PatchJob "a" apiPatchBody) 20 true apiState))
           (snd (route (PatchJob "a" apiPatchBody) 20 true apiState)));
    reflexivity.
Defined.

End ExternalApiProofs.

(* ===================================================================== *)
(** ** From the external API to the job store *)
(* ===================================================================== *)

Module ApiSyncProofs.
Import ConfigSync ConfigSyncProofs ExternalApi ExternalApiProofs.

Local Open Scope list_scope.

(** No character of the string is a dollar sign: as a replacement text it
    stands for itself. *)
Fixpoint dollarFree (s : string) : bool :=
  match s with
  | EmptyString => true
  | String c r => negb (Ascii.eqb c "$") && dollarFree r
  end.

Lemma getSubstitution_dollarFree matched before after rep :
  dollarFree rep = true -> getSubstitution matched before after rep = rep.
Proof.
  induction rep as [|c r IH]; simpl; [done|].
  intros [Hc Hr]%andb_true_iff. apply negb_true_iff in Hc. rewrite Hc.
  by rewrite IH.
Qed.

Lemma append_empty s : (s +:+ EmptyString)%string = s.
Proof.
  induction s as [|c s IH]; [reflexivity|].
  change (String c (s +:+ EmptyString)%string = String c s). by rewrite IH.
Qed.

Section Resolved.

Variable env : Env.
Variables tok chan : string.
Hypothesis Hbot : BOT_TOKEN env = Some tok.
Hypothesis Hraw : RAW_FEED_CHANNEL_ID env = Some chan.
Hypothesis Htok : tok <> EmptyString.
Hypothesis Hchan : chan <> EmptyString.
Hypothesis Htok_free : dollarFree tok = true.
Hypothesis Hchan_free : dollarFree chan = true.

Lemma env_bot : env_set (BOT_TOKEN env) = Some tok.
Proof.
  rewrite Hbot. unfold env_set. by destruct (String.eqb_spec tok EmptyString).
Qed.

Lemma env_raw : env_set (RAW_FEED_CHANNEL_ID env) = Some chan.
Proof.
  rewrite Hraw. unfold env_set. by destruct (String.eqb_spec chan EmptyString).
Qed.

Lemma resolve_telegram : replaceString env "telegram" = "telegram".
Proof. unfold replaceString. by rewrite env_bot, env_raw. Qed.

Lemma resolve_bot : replaceString env "${BOT_TOKEN}" = tok.
Proof.
  unfold replaceString. rewrite env_bot, env_raw.
  cbn. rewrite getSubstitution_dollarFree by done. apply append_empty.
Qed.

Lemma resolve_raw : replaceString env "${RAW_FEED_CHANNEL_ID}" = chan.
Proof.
  unfold replaceString. rewrite env_bot, env_raw.
  cbn. rewrite getSubstitution_dollarFree by done. apply append_empty.
Qed.

(** The adapter of a job created through the API, after the reconciler has
    resolved its placeholders. *)
Definition resolvedAdapter : value :=
  VObj [("id", VStr "telegram");
        ("fields", VObj [("token", VStr tok); ("chatId", VStr chan)])].

Lemma resolve_placeholderAdapter :
  replaceEnvPlaceholdersSimple env placeholderAdapter = resolvedAdapter.
Proof.
  unfold placeholderAdapter, resolvedAdapter.
  cbn [replaceEnvPlaceholdersSimple replaceProperty List.map fst snd].
  by rewrite resolve_telegram, resolve_bot, resolve_raw.
Qed.

End Resolved.

Lemma assoc_map_assign (f : value -> value) k v props :
  assoc k (List.map (fun kv => (fst kv, f (snd kv))) (assign k v props)) = f v.
Proof.
  induction props as [|[k' x] props IH]; simpl.
  - by rewrite String.eqb_refl.
  - destruct (String.eqb k k') eqn:Hk; simpl; [by rewrite String.eqb_refl|].
    by rewrite Hk.
Qed.

(** The element function of the array branch of the traversal. *)
Definition inArray (env : Env) (item : value) : value :=
  match item with
  | VObj _ | VArr _ => replaceEnvPlaceholdersSimple env item
  | _ => item
  end.

Lemma inArray_get env x : get x "id" <> None -> get (inArray env x) "id" <> None.
Proof. by destruct x. Qed.

Lemma jobIds_total l :
  Forall (fun x => get x "id" <> None) l -> exists ids, jobIds l = Some ids.
Proof.
  induction 1 as [|x l Hx _ [ids IH]]; simpl; [by eauto|].
  destruct (get x "id"); [|done]. rewrite IH. eauto.
Qed.


Definition apiEnv : Env :=
  {| BOT_TOKEN := Some "123:abc"; RAW_FEED_CHANNEL_ID := Some "-100200" |}.


End ApiSyncProofs.
